(** * ascii-raytracer: a shallow embedding of the ray-tracing core

    The C++ program computes on [float] (IEEE binary32) values, with a few
    sub-expressions carried out in [double] because a decimal literal such as
    [.001] has type [double].  The embedding is written once, over an
    interface [Arith] that names exactly the arithmetic the source uses, and
    is then read in two ways:

    - [IEEE.binary32]: binary32 / binary64 arithmetic after the executable
      specification [SpecFloat] of the standard library (round to nearest
      even, infinities, NaN), used to run the code on concrete rays;
    - [Real.arith]: exact arithmetic on [R], used for the geometric facts
      (unit normals, mirror reflection) that hold only up to rounding on
      machine numbers.

    Theorems about the control flow of the program are proved for every
    [Arith]. *)

From Stdlib Require Import ZArith QArith List Bool Lia.
From Stdlib Require Import Reals Lra.
From Stdlib Require Import Floats.SpecFloat.
Import ListNotations.

Set Implicit Arguments.

(** ** The arithmetic of the source *)

Class Arith : Type := {
  float : Type;
  double : Type;
  (* float arithmetic: + - * / unary minus, std::abs, std::sqrt, std::pow, < *)
  fadd : float -> float -> float;
  fsub : float -> float -> float;
  fmul : float -> float -> float;
  fdiv : float -> float -> float;
  fneg : float -> float;
  fabs : float -> float;
  fsqrt : float -> float;
  fpow : float -> float -> float;
  flt : float -> float -> bool;
  (* double arithmetic: only + * and < occur *)
  dadd : double -> double -> double;
  dmul : double -> double -> double;
  dlt : double -> double -> bool;
  (* conversions: promotion, narrowing, int to float/double, int(double) *)
  f2d : float -> double;
  d2f : double -> float;
  i2f : Z -> float;
  i2d : Z -> double;
  d2i : double -> Z;
  (* a decimal literal of type double, given by its exact rational value *)
  dlit : Q -> double
}.

(** An int constant that the source converts to float ([float x = 0],
    [p.z < -10]) and a float literal with a whole value ([1.f], [2.f]) are
    both written [i2f n]; a double constant narrowed to float ([{0.2, 0.7,
    0.8}]) is written [d2f (dlit q)].  [a > b] is [b < a]. *)

Declare Scope float_scope.
Delimit Scope float_scope with fl.
Declare Scope double_scope.
Delimit Scope double_scope with db.

Notation "a + b" := (fadd a b) : float_scope.
Notation "a - b" := (fsub a b) : float_scope.
Notation "a * b" := (fmul a b) : float_scope.
Notation "a / b" := (fdiv a b) : float_scope.
Notation "- a" := (fneg a) : float_scope.
Notation "a <? b" := (flt a b) : float_scope.
Notation "a >? b" := (flt b a) : float_scope.

Notation "a + b" := (dadd a b) : double_scope.
Notation "a * b" := (dmul a b) : double_scope.
Notation "a <? b" := (dlt a b) : double_scope.
Notation "a >? b" := (dlt b a) : double_scope.

(** ** The structs of the source

    The records take the type of their scalar fields as a parameter; in the
    program it is always [float]. *)

(* struct vec3 *)
Record vec3_of (F : Type) : Type := mkvec3 { x : F; y : F; z : F }.

(* struct Material *)
Record Material_of (F : Type) : Type := mkMaterial {
  refractive_index : F;
  albedo : F * F * F * F;
  diffuse_color : vec3_of F;
  specular_exponent : F
}.

(* struct Sphere *)
Record Sphere_of (F : Type) : Type := mkSphere {
  center : vec3_of F;
  radius : F;
  material : Material_of F
}.

(** The locals [nearest_dist], [pt], [N], [material] of scene_intersect,
    which the plane test and the loop over the spheres update. *)
Record nearest_of (F : Type) : Type := mkNearest {
  nearest_dist : F;
  pt : vec3_of F;
  nrm : vec3_of F;
  mat : Material_of F
}.

Abbreviation vec3 := (vec3_of float).
Abbreviation Material := (Material_of float).
Abbreviation Sphere := (Sphere_of float).
Abbreviation nearest := (nearest_of float).

Section Raytracer.

Context {A : Arith}.

(** std::max(a, b) is [(a < b) ? b : a] and std::min(a, b) is
    [(b < a) ? b : a]; written out because the choice matters on NaN. *)
Definition fmax (a b : float) : float := if (a <? b)%fl then b else a.
Definition fmin (a b : float) : float := if (b <? a)%fl then b else a.

(** ** The operators of vec3 *)

(* vec3 operator*(const float v) *)
Definition vscale (u : vec3) (v : float) : vec3 :=
  mkvec3 (x u * v)%fl (y u * v)%fl (z u * v)%fl.

(* float operator*(const vec3& v) *)
Definition dot (u v : vec3) : float :=
  (x u * x v + y u * y v + z u * z v)%fl.

Definition vadd (u v : vec3) : vec3 :=
  mkvec3 (x u + x v)%fl (y u + y v)%fl (z u + z v)%fl.

Definition vsub (u v : vec3) : vec3 :=
  mkvec3 (x u - x v)%fl (y u - y v)%fl (z u - z v)%fl.

Definition vneg (u : vec3) : vec3 :=
  mkvec3 (- x u)%fl (- y u)%fl (- z u)%fl.

Definition norm (u : vec3) : float :=
  fsqrt (x u * x u + y u * y u + z u * z u)%fl.

Definition normalized (u : vec3) : vec3 :=
  vscale u (i2f 1 / norm u)%fl.

Definition cross (v1 v2 : vec3) : vec3 :=
  mkvec3 (y v1 * z v2 - z v1 * y v2)%fl
         (z v1 * x v2 - x v1 * z v2)%fl
         (x v1 * y v2 - y v1 * x v2)%fl.

(** A braced initialiser from int constants, [vec3{1, 0, 0}], and from
    double constants, [vec3{.3, .2, .1}]. *)
Definition ivec (a b c : Z) : vec3 := mkvec3 (i2f a) (i2f b) (i2f c).
Definition qvec (a b c : Q) : vec3 :=
  mkvec3 (d2f (dlit a)) (d2f (dlit b)) (d2f (dlit c)).

(** ** The scene constants *)

(* material.albedo[i] for the constant indices 0..3 of the source *)
Definition albedo_at (m : Material) (i : nat) : float :=
  let '(a0, a1, a2, a3) := albedo m in
  match i with
  | 0%nat => a0
  | 1%nat => a1
  | 2%nat => a2
  | _ => a3
  end.

(** The default member initialisers: what [Material material;] holds. *)
Definition default_Material : Material :=
  mkMaterial (i2f 1) (i2f 2, i2f 0, i2f 0, i2f 0) (ivec 0 0 0) (i2f 0).

Definition set_diffuse_color (m : Material) (c : vec3) : Material :=
  mkMaterial (refractive_index m) (albedo m) c (specular_exponent m).

Definition qlit (q : Q) : float := d2f (dlit q).

Definition ivory : Material :=
  mkMaterial (qlit 1) (qlit 0.9, qlit 0.5, qlit 0.1, qlit 0)
             (qvec 0.4 0.4 0.3) (qlit 50).
Definition glass : Material :=
  mkMaterial (qlit 1.5) (qlit 0, qlit 0.9, qlit 0.1, qlit 0.8)
             (qvec 0.6 0.7 0.8) (qlit 125).
Definition red_rubber : Material :=
  mkMaterial (qlit 1) (qlit 1.4, qlit 0.3, qlit 0, qlit 0)
             (qvec 0.3 0.1 0.1) (qlit 10).
Definition mirror : Material :=
  mkMaterial (qlit 1) (qlit 0, qlit 16, qlit 0.8, qlit 0)
             (qvec 1 1 1) (qlit 1425).

(** The global array [spheres] as the program starts.  It is not const:
    [animate] moves two centers between frames, so the functions below take
    the array as an argument. *)
Definition spheres : list Sphere :=
  [ mkSphere (ivec (-3) 0 (-16)) (i2f 2) ivory;
    mkSphere (mkvec3 (qlit (-1)) (qlit (-1.5)) (i2f (-12))) (i2f 2) glass;
    mkSphere (mkvec3 (qlit 1.5) (qlit (-0.5)) (i2f (-18))) (i2f 3) red_rubber;
    mkSphere (ivec 7 5 (-18)) (i2f 4) mirror ].

Definition lights : list vec3 :=
  [ ivec (-20) 20 20; ivec 30 50 (-25); ivec 30 20 30 ].

(** ** reflect and refract *)

(* return I - N * 2.f * (I * N); *)
Definition reflect (I N : vec3) : vec3 :=
  vsub I (vscale (vscale N (i2f 2)) (dot I N)).

(* float cosi = -std::max(-1.f, std::min(1.f, I * N)); *)
Definition cosi_of (I N : vec3) : float :=
  (- fmax (- i2f 1) (fmin (i2f 1) (dot I N)))%fl.

(* float k = 1 - eta * eta * (1 - cosi * cosi); the discriminant of
   Snell's law *)
Definition discriminant (eta cosi : float) : float :=
  (i2f 1 - eta * eta * (i2f 1 - cosi * cosi))%fl.

(** [refract] calls itself when the ray comes from inside the object.  The
    recursion is not structural, and on machine numbers it need not stop (a
    NaN cosine is clamped to -1 on every round), so the embedding counts the
    calls: [None] says that [fuel] nested calls were not enough. *)
Fixpoint refract (fuel : nat) (I N : vec3) (eta_t eta_i : float)
  : option vec3 :=
  match fuel with
  | O => None
  | S fuel' =>
      let cosi := cosi_of I N in
      if (cosi <? i2f 0)%fl then refract fuel' I (vneg N) eta_i eta_t
      else
        let eta := (eta_i / eta_t)%fl in
        let k := discriminant eta cosi in
        Some (if (k <? i2f 0)%fl then ivec 1 0 0
              else vadd (vscale I eta)
                        (vscale N (eta * cosi - fsqrt k)%fl))
  end.

(** ** ray_sphere_intersect *)

(* the double literal .001 that guards against self-intersection *)
Definition eps : double := dlit 0.001.

Definition ray_sphere_intersect (orig dir : vec3) (s : Sphere)
  : bool * float :=
  let L := vsub (center s) orig in
  let tca := dot L dir in
  let d2 := (dot L L - tca * tca)%fl in
  if (d2 >? radius s * radius s)%fl then (false, i2f 0)
  else
    let thc := fsqrt (radius s * radius s - d2)%fl in
    let t0 := (tca - thc)%fl in
    let t1 := (tca + thc)%fl in
    if (f2d t0 >? eps)%db then (true, t0)
    else if (f2d t1 >? eps)%db then (true, t1)
    else (false, i2f 0).

(** ** scene_intersect *)

Definition nearest_init : nearest :=
  mkNearest (d2f (dlit 1e10)) (ivec 0 0 0) (ivec 0 0 0) default_Material.

(* (int(.5 * pt.x + 1000) + int(.5 * pt.z)) & 1 *)
Definition checker_class (p : vec3) : Z :=
  Z.land (d2i (dlit 0.5 * f2d (x p) + i2d 1000)%db
          + d2i (dlit 0.5 * f2d (z p))%db) 1.

Definition checker_color (p : vec3) : vec3 :=
  if (checker_class p =? 0)%Z then qvec 0.3 0.2 0.1 else qvec 0.3 0.3 0.3.

(* the distance and the point at which the ray meets the plane y = -4 *)
Definition plane_dist (orig dir : vec3) : float :=
  (- (y orig + i2f 4) / y dir)%fl.

Definition plane_point (orig dir : vec3) : vec3 :=
  vadd orig (vscale dir (plane_dist orig dir)).

(* the two nested conditions under which the checkerboard is hit *)
Definition plane_accept (orig dir : vec3) (st : nearest) : bool :=
  (f2d (fabs (y dir)) >? eps)%db
  && (let d := plane_dist orig dir in
      let p := plane_point orig dir in
      (f2d d >? eps)%db && (d <? nearest_dist st)%fl
      && (fabs (x p) <? i2f 10)%fl
      && (z p <? i2f (-10))%fl && (z p >? i2f (-30))%fl).

Definition plane_step (orig dir : vec3) (st : nearest) : nearest :=
  if plane_accept orig dir st then
    let p := plane_point orig dir in
    mkNearest (plane_dist orig dir) p (ivec 0 1 0)
              (set_diffuse_color (mat st) (checker_color p))
  else st.

(* the body of the loop over the spheres *)
Definition sphere_step (orig dir : vec3) (st : nearest) (s : Sphere)
  : nearest :=
  let '(intersection, d) := ray_sphere_intersect orig dir s in
  if negb intersection || (d >? nearest_dist st)%fl then st
  else
    let p := vadd orig (vscale dir d) in
    mkNearest d p (normalized (vsub p (center s))) (material s).

Definition scene_state (sph : list Sphere) (orig dir : vec3) : nearest :=
  fold_left (sphere_step orig dir) sph (plane_step orig dir nearest_init).

Definition scene_intersect (sph : list Sphere) (orig dir : vec3)
  : bool * vec3 * vec3 * Material :=
  let st := scene_state sph orig dir in
  ((nearest_dist st <? i2f 1000)%fl, pt st, nrm st, mat st).

(* the locals after the loop body has recorded sphere [s] *)
Definition sphere_won (orig dir : vec3) (s : Sphere) : nearest :=
  let d := snd (ray_sphere_intersect orig dir s) in
  mkNearest d (vadd orig (vscale dir d))
            (normalized (vsub (vadd orig (vscale dir d)) (center s)))
            (material s).

(* the locals after the plane test has recorded the checkerboard *)
Definition plane_won (orig dir : vec3) : nearest :=
  mkNearest (plane_dist orig dir) (plane_point orig dir) (ivec 0 1 0)
            (set_diffuse_color default_Material
                               (checker_color (plane_point orig dir))).

(* the flag [hit] of the tuple that scene_intersect returns *)
Definition hit_of (r : bool * vec3 * vec3 * Material) : bool :=
  let '(hit, _, _, _) := r in hit.

(* its second component: the point of the nearest hit *)
Definition point_of (r : bool * vec3 * vec3 * Material) : vec3 :=
  let '(_, point, _, _) := r in point.

Definition normal_of (r : bool * vec3 * vec3 * Material) : vec3 :=
  let '(_, _, N, _) := r in N.

Definition material_of (r : bool * vec3 * vec3 * Material) : Material :=
  let '(_, _, _, m) := r in m.

(** ** cast_ray *)

Definition background : vec3 := qvec 0.2 0.7 0.8.

(* the body of the loop over the lights; acc is
   (diffuse_light_intensity, specular_light_intensity) *)
Definition light_step (sph : list Sphere) (point N dir : vec3)
    (m : Material) (acc : float * float) (light : vec3) : float * float :=
  let light_dir := normalized (vsub light point) in
  let '(hit, shadow_pt, _, _) := scene_intersect sph point light_dir in
  if hit && (norm (vsub shadow_pt point) <? norm (vsub light point))%fl
  then acc
  else
    ((fst acc + fmax (i2f 0) (dot light_dir N))%fl,
     (snd acc
      + fpow (fmax (i2f 0) (dot (vneg (reflect (vneg light_dir) N)) dir))
             (specular_exponent m))%fl).

(* the value of the final return statement *)
Definition shade (m : Material) (intensity : float * float)
    (reflect_color refract_color : vec3) : vec3 :=
  vadd (vadd (vadd
    (vscale (vscale (diffuse_color m) (fst intensity)) (albedo_at m 0))
    (vscale (vscale (qvec 1 1 1) (snd intensity)) (albedo_at m 1)))
    (vscale reflect_color (albedo_at m 2)))
    (vscale refract_color (albedo_at m 3)).

(** [cast_ray] with a bound on nested calls, shared with [refract]:
    [None] says the bound was reached.  [depth] is the int of the source. *)
Fixpoint cast_ray (fuel : nat) (sph : list Sphere) (orig dir : vec3)
    (depth : Z) : option vec3 :=
  match fuel with
  | O => None
  | S fuel' =>
      let '(hit, point, N, m) := scene_intersect sph orig dir in
      if (depth >? 4)%Z || negb hit then Some background
      else
        let reflect_dir := normalized (reflect dir N) in
        match refract fuel' dir N (refractive_index m) (i2f 1) with
        | None => None
        | Some r =>
            let refract_dir := normalized r in
            match cast_ray fuel' sph point reflect_dir (depth + 1),
                  cast_ray fuel' sph point refract_dir (depth + 1) with
            | Some reflect_color, Some refract_color =>
                Some (shade m
                        (fold_left (light_step sph point N dir m) lights
                                   (i2f 0, i2f 0))
                        reflect_color refract_color)
            | _, _ => None
            end
        end
  end.

End Raytracer.

(** ** The calls of cast_ray

    [cast_ray_traced] is [cast_ray] returning, next to the color, the tree of
    its own invocations: [Stop depth] for one that returns the background,
    [Bounce depth l r] for one that shades a hit, with the trees of its
    reflection and refraction calls. *)

Inductive calls : Type :=
| Stop (depth : Z)
| Bounce (depth : Z) (reflect_calls refract_calls : calls).

Section Traced.

Context {A : Arith}.

Fixpoint cast_ray_traced (fuel : nat) (sph : list Sphere) (orig dir : vec3)
    (depth : Z) : option (vec3 * calls) :=
  match fuel with
  | O => None
  | S fuel' =>
      let '(hit, point, N, m) := scene_intersect sph orig dir in
      if (depth >? 4)%Z || negb hit then Some (background, Stop depth)
      else
        let reflect_dir := normalized (reflect dir N) in
        match refract fuel' dir N (refractive_index m) (i2f 1) with
        | None => None
        | Some r =>
            let refract_dir := normalized r in
            match cast_ray_traced fuel' sph point reflect_dir (depth + 1),
                  cast_ray_traced fuel' sph point refract_dir (depth + 1) with
            | Some (reflect_color, tl), Some (refract_color, tr) =>
                Some (shade m
                        (fold_left (light_step sph point N dir m) lights
                                   (i2f 0, i2f 0))
                        reflect_color refract_color,
                      Bounce depth tl tr)
            | _, _ => None
            end
        end
  end.

End Traced.




Fixpoint calls_count (t : calls) : nat :=
  match t with
  | Stop _ => 1
  | Bounce _ l r => S (calls_count l + calls_count r)
  end.

(* the longest chain of nested invocations that shade a hit *)
Fixpoint calls_shading (t : calls) : nat :=
  match t with
  | Stop _ => 0
  | Bounce _ l r => S (Nat.max (calls_shading l) (calls_shading r))
  end.

(* the longest chain of nested invocations *)
Fixpoint calls_height (t : calls) : nat :=
  match t with
  | Stop _ => 1
  | Bounce _ l r => S (Nat.max (calls_height l) (calls_height r))
  end.

(** ** Scenes and rays to run the code on *)

Section Scenes.

Context {A : Arith}.

Definition ivory_ball : Sphere := mkSphere (ivec 0 0 (-4)) (i2f 2) ivory.
Definition mirror_ball : Sphere := mkSphere (ivec 0 0 (-5)) (i2f 3) mirror.
Definition glass_shell (r : Z) : Sphere :=
  mkSphere (ivec 0 0 0) (i2f r) glass.

(* two spheres that touch from inside at (0, 0, -2) *)
Definition tangent_scene : list Sphere := [ ivory_ball; mirror_ball ].

(* six glass shells around the camera: every bounce hits one of them *)
Definition nested_scene : list Sphere :=
  map glass_shell [10; 20; 30; 40; 50; 60]%Z.

Definition one_sphere_scene : list Sphere := [ ivory_ball ].

Definition camera : vec3 := ivec 0 0 0.
(* a point above the checkerboard and the point below it on the board *)
Definition above_board : vec3 := ivec 0 0 (-15).
Definition on_board : vec3 := ivec 0 (-4) (-15).
Definition forward : vec3 := ivec 0 0 (-1).
Definition upward : vec3 := ivec 0 1 0.
Definition downward : vec3 := ivec 0 (-1) 0.
Definition slanted : vec3 := normalized (ivec 1 1 (-10)).

End Scenes.

(** ** Machine arithmetic: binary32 for float, binary64 for double *)

Module IEEE.

Definition prec32 : Z := 24.
Definition emax32 : Z := 128.
Definition prec64 : Z := 53.
Definition emax64 : Z := 1024.

(* the value of a finite number, rounded into the format (prec, emax) *)
Definition convert (prec emax : Z) (v : spec_float) : spec_float :=
  match v with
  | S754_finite s m e => binary_normalize prec emax (cond_Zopp s (Zpos m)) e s
  | _ => v
  end.

Definition of_Z (prec emax : Z) (n : Z) : spec_float :=
  binary_normalize prec emax n 0 false.

(** int(v): the fraction is discarded (truncation toward zero).  On NaN, on
    an infinity and outside the range of int the C++ conversion is
    undefined; the embedding returns 0 for the first two. *)
Definition to_Z (v : spec_float) : Z :=
  match v with
  | S754_finite s m e => cond_Zopp s (Z.shiftl (Zpos m) e)
  | _ => 0%Z
  end.

(** A decimal literal is the double nearest to its value: the quotient of
    numerator and denominator, both exact in binary64 for the literals of
    the source, rounded once. *)
Definition of_Q (q : Q) : spec_float :=
  SFdiv prec64 emax64 (of_Z prec64 emax64 (Qnum q))
                      (of_Z prec64 emax64 (Zpos (Qden q))).


(** std::pow belongs to the C library, not to IEEE 754, and its rounding is
    not specified; the instance takes it as a parameter. *)
Definition arith (pow : spec_float -> spec_float -> spec_float) : Arith := {|
  float := spec_float;
  double := spec_float;
  fadd := SFadd prec32 emax32;
  fsub := SFsub prec32 emax32;
  fmul := SFmul prec32 emax32;
  fdiv := SFdiv prec32 emax32;
  fneg := SFopp;
  fabs := SFabs;
  fsqrt := SFsqrt prec32 emax32;
  fpow := pow;
  flt := SFltb;
  dadd := SFadd prec64 emax64;
  dmul := SFmul prec64 emax64;
  dlt := SFltb;
  f2d := convert prec64 emax64;
  d2f := convert prec32 emax32;
  i2f := of_Z prec32 emax32;
  i2d := of_Z prec64 emax64;
  d2i := to_Z;
  dlit := of_Q
|}.

(** A stand-in for std::pow on the exponents of the scene, which are whole
    numbers: the base multiplied [y] times in binary32, 1 for [y = 0]. *)
Definition powi (b y : spec_float) : spec_float :=
  Nat.iter (Z.to_nat (to_Z y)) (SFmul prec32 emax32 b) (of_Z prec32 emax32 1).

Definition binary32 : Arith := arith powi.

(* a sphere of radius 2^-100 in front of the camera: radius * radius
   underflows to 0 *)
Definition speck_scene : list (Sphere_of spec_float) :=
  [ mkSphere (ivec (A := binary32) 0 0 (-5))
             (S754_finite false 8388608 (-123)) (glass (A := binary32)) ].

End IEEE.

(** ** Exact arithmetic on the reals *)

Module Real.

Definition ltb (a b : R) : bool := if Rlt_dec a b then true else false.

(* int(r): truncation toward zero *)
Definition trunc (r : R) : Z :=
  if Rle_dec 0 r then Int_part r else (- Int_part (- r))%Z.

(* the largest integer not above r, and the smallest not below it *)
Definition floor (r : R) : Z := Int_part r.

(* x^y for a base x >= 0, with pow(0, 0) = 1 and pow(0, y) = 0 *)
Definition pow (b e : R) : R :=
  if Req_dec_T b 0 then (if Req_dec_T e 0 then 1%R else 0%R)
  else Rpower b e.

Definition arith : Arith := {|
  float := R;
  double := R;
  fadd := Rplus;
  fsub := Rminus;
  fmul := Rmult;
  fdiv := Rdiv;
  fneg := Ropp;
  fabs := Rabs;
  fsqrt := sqrt;
  fpow := pow;
  flt := ltb;
  dadd := Rplus;
  dmul := Rmult;
  dlt := ltb;
  f2d := fun r => r;
  d2f := fun r => r;
  i2f := IZR;
  i2d := IZR;
  d2i := trunc;
  dlit := Q2R
|}.

End Real.

(** * The rest of the program: display, frame and animation

    [print_colored_square], [render], [rotate], [animate] and the constants
    of [main] use arithmetic that the ray-tracing core does not: double
    subtraction, division and negation, and the C functions tan, cos and
    sin. *)

Class ArithMore (A : Arith) : Type := {
  dsub : double -> double -> double;
  ddiv : double -> double -> double;
  dneg : double -> double;
  (* tan(double) of the C library *)
  dtan : double -> double
}.

(** [rotate] calls cos and sin unqualified on a float.  Which function that
    names depends on the headers: the C function on double, or the float
    overload of the C++ library.  [trig] is the type of [cos(radX)], double
    or float accordingly, and the products and sums of [rotate] are carried
    out in it.  [m_pi] is the macro M_PI of the platform. *)
Class TrigArith (A : Arith) : Type := {
  trig : Type;
  tcos : float -> trig;
  tsin : float -> trig;
  t_of : float -> trig;
  t2f : trig -> float;
  tadd : trig -> trig -> trig;
  tsub : trig -> trig -> trig;
  tmul : trig -> trig -> trig;
  m_pi : double
}.



Section Display.

Context {A : Arith}.

(* for (int i = 0; i < n; i++) *)
Definition range (n : Z) : list Z := map Z.of_nat (seq 0 (Z.to_nat n)).

(** [l[i] = v] on an array or a vector.  An index outside of it is
    undefined in C++ and does not occur below; the embedding leaves the
    list alone. *)
Fixpoint set_nth {T : Type} (l : list T) (i : nat) (v : T) : list T :=
  match l, i with
  | [], _ => []
  | _ :: t, O => v :: t
  | h :: t, S i' => h :: set_nth t i' v
  end.



(** (int)(v * 5): the product is a float; its conversion to int discards
    the fraction, as the conversion of the double of the same value does. *)
Definition level (v : float) : Z := d2i (f2d (v * i2f 5)%fl).

(* int color_index = 16 + (36 * (int)(r * 5)) + (6 * (int)(g * 5))
                     + (int)(b * 5); *)
Definition color_index (r g b : float) : Z :=
  (16 + 36 * level r + 6 * level g + level b)%Z.


(* main: for (int i = 16; i < 232; i++) init_pair(i, i, COLOR_BLACK); *)
Definition init_pairs : list Z := map (fun i => (16 + i)%Z) (range (232 - 16)).

(* main: constexpr int width = 80; constexpr int height = 40; *)
Definition width : Z := 80.
Definition height : Z := 40.

End Display.

Section Render.

Context {A : Arith} {M : ArithMore A}.

(* constexpr float fov = 1.05; *)
Definition fov : float := qlit 1.05.

(** The direction of the ray through pixel (x, y): dir_x, dir_y and dir_z
    are computed in double and stored in floats. *)
Definition pixel_dir (w h x y : Z) : vec3 :=
  let dir_x := d2f (dsub (i2d x + dlit 0.5)%db (ddiv (i2d w) (dlit 2))) in
  let dir_y :=
    d2f (dneg (i2d y + dlit 0.5)%db + ddiv (i2d h) (dlit 2))%db in
  let dir_z :=
    d2f (ddiv (i2d (- h))
              (dlit 2 * dtan (ddiv (f2d fov) (dlit 2)))%db) in
  normalized (mkvec3 dir_x dir_y dir_z).





End Render.

Section Animation.

Context {A : Arith} {M : ArithMore A} {T : TrigArith A}.

(* float radX = angleX * M_PI / 180.0; *)
Definition radians (angle : float) : float :=
  d2f (ddiv (f2d angle * m_pi)%db (dlit 180)).

Definition rotate (point pivot : vec3) (angleX angleY angleZ : float)
  : vec3 :=
  let radX := radians angleX in
  let radY := radians angleY in
  let radZ := radians angleZ in
  (* translate point to origin *)
  let px := (x point - x pivot)%fl in
  let py := (y point - y pivot)%fl in
  let pz := (z point - z pivot)%fl in
  (* rotation around the X axis *)
  let y1 := t2f (tsub (tmul (t_of py) (tcos radX))
                      (tmul (t_of pz) (tsin radX))) in
  let z1 := t2f (tadd (tmul (t_of py) (tsin radX))
                      (tmul (t_of pz) (tcos radX))) in
  let py := y1 in
  let pz := z1 in
  (* rotation around the Y axis *)
  let x2 := t2f (tadd (tmul (t_of px) (tcos radY))
                      (tmul (t_of pz) (tsin radY))) in
  let z2 := t2f (tadd (tmul (t_of (- px)%fl) (tsin radY))
                      (tmul (t_of pz) (tcos radY))) in
  let px := x2 in
  let pz := z2 in
  (* rotation around the Z axis *)
  let x3 := t2f (tsub (tmul (t_of px) (tcos radZ))
                      (tmul (t_of py) (tsin radZ))) in
  let y3 := t2f (tadd (tmul (t_of px) (tsin radZ))
                      (tmul (t_of py) (tcos radZ))) in
  let px := x3 in
  let py := y3 in
  (* translate back *)
  mkvec3 (px + x pivot)%fl (py + y pivot)%fl (pz + z pivot)%fl.

(* spheres[i].center = rotate(spheres[i].center, pivot, aX, aY, aZ); *)
Definition turn (sph : list Sphere) (i : nat) (pivot : vec3)
    (angleX angleY angleZ : float) : list Sphere :=
  match nth_error sph i with
  | Some s =>
      set_nth sph i
        (mkSphere (rotate (center s) pivot angleX angleY angleZ)
                  (radius s) (material s))
  | None => sph
  end.

Definition animate (sph : list Sphere) : list Sphere :=
  let sph := turn sph 3 (qvec 1.5 (-2.5) (-20)) (i2f 0) (qlit (-0.8))
                  (qlit 0) in
  turn sph 2 (qvec 1.5 (-2.5) (-15)) (i2f 0) (qlit 1.6) (qlit 0).

(* the scene that the n-th round of the loop of main renders *)
Definition frame_scene (n : nat) : list Sphere :=
  Nat.iter (S n) animate spheres.

End Animation.

(** The instances of the two interfaces; tan, cos and sin of the C library
    are parameters on machine numbers. *)

Module IEEEMore.

(* the fields are dsub, ddiv, dneg and dtan *)
Definition more (tan : spec_float -> spec_float)
  : ArithMore IEEE.binary32 :=
  @Build_ArithMore IEEE.binary32
    (SFsub IEEE.prec64 IEEE.emax64)
    (SFdiv IEEE.prec64 IEEE.emax64)
    SFopp
    tan.

(* cos and sin on double, as with the C functions; the fields are trig,
   tcos, tsin, t_of, t2f, tadd, tsub, tmul and m_pi *)
Definition trig_double (cos sin : spec_float -> spec_float)
  : TrigArith IEEE.binary32 :=
  @Build_TrigArith IEEE.binary32
    spec_float
    (fun r => cos (IEEE.convert IEEE.prec64 IEEE.emax64 r))
    (fun r => sin (IEEE.convert IEEE.prec64 IEEE.emax64 r))
    (IEEE.convert IEEE.prec64 IEEE.emax64)
    (IEEE.convert IEEE.prec32 IEEE.emax32)
    (SFadd IEEE.prec64 IEEE.emax64)
    (SFsub IEEE.prec64 IEEE.emax64)
    (SFmul IEEE.prec64 IEEE.emax64)
    (IEEE.of_Q 3.14159265358979323846).

End IEEEMore.

Module RealMore.

Definition more : ArithMore Real.arith :=
  @Build_ArithMore Real.arith Rminus Rdiv Ropp tan.

Definition trig : TrigArith Real.arith :=
  @Build_TrigArith Real.arith R cos sin (fun r => r) (fun r => r)
                   Rplus Rminus Rmult PI.



End RealMore.

(** * Properties that hold in every arithmetic *)

Section Generic.

Context {A : Arith}.

(** ** scene_intersect: the scan over the plane and the spheres *)

Lemma sphere_step_miss (orig dir : vec3) (st : nearest) (s : Sphere) :
  fst (ray_sphere_intersect orig dir s) = false ->
  sphere_step orig dir st s = st.
Proof.
  unfold sphere_step.
  destruct (ray_sphere_intersect orig dir s) as [i d]; simpl.
  intros ->; reflexivity.
Qed.

Lemma fold_sphere_step_miss (orig dir : vec3) (sph : list Sphere) :
  forall st,
    (forall s, In s sph -> fst (ray_sphere_intersect orig dir s) = false) ->
    fold_left (sphere_step orig dir) sph st = st.
Proof.
  induction sph as [|s sph IH]; intros st Hmiss; simpl.
  - reflexivity.
  - rewrite sphere_step_miss by (apply Hmiss; left; reflexivity).
    apply IH. intros s' Hs'. apply Hmiss. right; exact Hs'.
Qed.

Lemma scene_state_miss (sph : list Sphere) (orig dir : vec3) :
  plane_accept orig dir nearest_init = false ->
  (forall s, In s sph -> fst (ray_sphere_intersect orig dir s) = false) ->
  scene_state sph orig dir = nearest_init.
Proof.
  intros Hplane Hmiss. unfold scene_state, plane_step.
  rewrite Hplane. apply fold_sphere_step_miss; exact Hmiss.
Qed.

(* one unfolding of cast_ray, on the components of the returned tuple *)
Lemma cast_ray_eq (fuel : nat) (sph : list Sphere) (orig dir : vec3)
    (depth : Z) :
  cast_ray (S fuel) sph orig dir depth =
  let r := scene_intersect sph orig dir in
  if (depth >? 4)%Z || negb (hit_of r) then Some background
  else
    match refract fuel dir (normal_of r) (refractive_index (material_of r))
                  (i2f 1) with
    | None => None
    | Some v =>
        match cast_ray fuel sph (point_of r)
                       (normalized (reflect dir (normal_of r))) (depth + 1),
              cast_ray fuel sph (point_of r) (normalized v) (depth + 1) with
        | Some reflect_color, Some refract_color =>
            Some (shade (material_of r)
                    (fold_left
                       (light_step sph (point_of r) (normal_of r) dir
                                   (material_of r))
                       lights (i2f 0, i2f 0))
                    reflect_color refract_color)
        | _, _ => None
        end
    end.
Proof.
  cbn [cast_ray].
  destruct (scene_intersect sph orig dir) as [[[hit p] N] m]. reflexivity.
Qed.

Lemma cast_ray_terminal (fuel : nat) (sph : list Sphere) (orig dir : vec3)
    (depth : Z) :
  (depth >? 4)%Z || negb (hit_of (scene_intersect sph orig dir)) = true ->
  cast_ray (S fuel) sph orig dir depth = Some background.
Proof.
  intros H. rewrite cast_ray_eq. cbv zeta. rewrite H. reflexivity.
Qed.

(** C1.  Whatever the ray and the scene, cast_ray returns the background
    color (0.2, 0.7, 0.8) when depth > 4 or when scene_intersect reports no
    hit; and a ray that the checkerboard test rejects and that misses every
    sphere is such a ray (the sentinel 1e10 left in nearest_dist is not
    below 1000). *)
Theorem cast_ray_background (fuel : nat) (sph : list Sphere)
    (orig dir : vec3) (depth : Z) :
  ((depth > 4)%Z \/ hit_of (scene_intersect sph orig dir) = false ->
   cast_ray (S fuel) sph orig dir depth = Some background)
  /\ ((d2f (dlit 1e10) <? i2f 1000)%fl = false ->
      plane_accept orig dir nearest_init = false ->
      (forall s, In s sph ->
                 fst (ray_sphere_intersect orig dir s) = false) ->
      hit_of (scene_intersect sph orig dir) = false
      /\ cast_ray (S fuel) sph orig dir depth = Some background).
Proof.
  split.
  - intros [Hd | Hh]; apply cast_ray_terminal.
    + apply Z.gt_lt, Z.gtb_lt in Hd. rewrite Hd; reflexivity.
    + rewrite Hh. apply orb_true_r.
  - intros Hsent Hplane Hmiss.
    assert (Hh : hit_of (scene_intersect sph orig dir) = false).
    { unfold scene_intersect, hit_of.
      rewrite scene_state_miss by assumption. exact Hsent. }
    split; [exact Hh|].
    apply cast_ray_terminal. rewrite Hh. apply orb_true_r.
Qed.

(** ** refract *)

(** C2, as the code has it.  When the discriminant is negative, refract
    returns the constant vector (1, 0, 0), not the incident direction: at
    once when the ray comes from outside (cosi is not negative), and after
    one call with the normal flipped and the indices swapped when it comes
    from inside. *)
Theorem refract_total_reflection (fuel : nat) (I N : vec3)
    (eta_t eta_i : float) :
  ((cosi_of I N <? i2f 0)%fl = false ->
   (discriminant (eta_i / eta_t)%fl (cosi_of I N) <? i2f 0)%fl = true ->
   refract (S fuel) I N eta_t eta_i = Some (ivec 1 0 0))
  /\ ((cosi_of I N <? i2f 0)%fl = true ->
      (cosi_of I (vneg N) <? i2f 0)%fl = false ->
      (discriminant (eta_t / eta_i)%fl (cosi_of I (vneg N)) <? i2f 0)%fl
      = true ->
      refract (S (S fuel)) I N eta_t eta_i = Some (ivec 1 0 0)).
Proof.
  assert (Hout : forall n I' N' et ei,
             (cosi_of I' N' <? i2f 0)%fl = false ->
             (discriminant (ei / et)%fl (cosi_of I' N') <? i2f 0)%fl = true ->
             refract (S n) I' N' et ei = Some (ivec 1 0 0)).
  { intros n I' N' et ei Hc Hk. simpl. rewrite Hc, Hk. reflexivity. }
  split.
  - apply Hout.
  - intros Hin Hc Hk.
    replace (refract (S (S fuel)) I N eta_t eta_i)
      with (refract (S fuel) I (vneg N) eta_i eta_t)
      by (simpl; rewrite Hin; reflexivity).
    apply Hout; assumption.
Qed.

(** ** ray_sphere_intersect *)

(* a reported hit passed the test on d2 and lies beyond .001 *)
Lemma ray_sphere_intersect_hit (orig dir : vec3) (s : Sphere) :
  let L := vsub (center s) orig in
  let tca := dot L dir in
  let d2 := (dot L L - tca * tca)%fl in
  fst (ray_sphere_intersect orig dir s) = true ->
  (d2 >? radius s * radius s)%fl = false
  /\ (f2d (snd (ray_sphere_intersect orig dir s)) >? eps)%db = true.
Proof.
  intros L tca d2. unfold ray_sphere_intersect.
  fold L; fold tca; fold d2.
  destruct (d2 >? radius s * radius s)%fl; [discriminate |].
  destruct (f2d (tca - fsqrt (radius s * radius s - d2))%fl >? eps)%db
    eqn:E0;
    [intros _; split; [reflexivity | exact E0] |].
  destruct (f2d (tca + fsqrt (radius s * radius s - d2))%fl >? eps)%db
    eqn:E1;
    [intros _; split; [reflexivity | exact E1] | discriminate].
Qed.

(** C5.  With L = center - orig, tca = L.dir and d2 = L.L - tca^2,
    ray_sphere_intersect reports no hit when d2 > radius^2; otherwise, with
    thc = sqrt(radius^2 - d2), t0 = tca - thc and t1 = tca + thc, it reports
    t0 if t0 > .001, else t1 if t1 > .001, else no hit.  So a reported
    distance always exceeds .001. *)
Theorem ray_sphere_intersect_cases (orig dir : vec3) (s : Sphere) :
  let L := vsub (center s) orig in
  let tca := dot L dir in
  let d2 := (dot L L - tca * tca)%fl in
  let r2 := (radius s * radius s)%fl in
  let t0 := (tca - fsqrt (r2 - d2))%fl in
  let t1 := (tca + fsqrt (r2 - d2))%fl in
  ((d2 >? r2)%fl = true ->
   ray_sphere_intersect orig dir s = (false, i2f 0))
  /\ ((d2 >? r2)%fl = false -> (f2d t0 >? eps)%db = true ->
      ray_sphere_intersect orig dir s = (true, t0))
  /\ ((d2 >? r2)%fl = false -> (f2d t0 >? eps)%db = false ->
      (f2d t1 >? eps)%db = true ->
      ray_sphere_intersect orig dir s = (true, t1))
  /\ ((d2 >? r2)%fl = false -> (f2d t0 >? eps)%db = false ->
      (f2d t1 >? eps)%db = false ->
      ray_sphere_intersect orig dir s = (false, i2f 0))
  /\ (fst (ray_sphere_intersect orig dir s) = true ->
      (d2 >? r2)%fl = false
      /\ (f2d (snd (ray_sphere_intersect orig dir s)) >? eps)%db = true).
Proof.
  intros L tca d2 r2 t0 t1. unfold ray_sphere_intersect.
  fold L; fold tca; fold d2; fold r2; fold t0; fold t1.
  repeat split.
  - intros ->; reflexivity.
  - intros -> ->; reflexivity.
  - intros -> -> ->; reflexivity.
  - intros -> -> ->; reflexivity.
  - apply (ray_sphere_intersect_hit orig dir s H).
  - apply (ray_sphere_intersect_hit orig dir s H).
Qed.

(** ** The nearest-hit selection *)

(* the loop body either records the sphere or leaves the locals alone *)
Lemma sphere_step_cases (orig dir : vec3) (st : nearest) (s : Sphere) :
  sphere_step orig dir st s =
  if fst (ray_sphere_intersect orig dir s)
     && negb (snd (ray_sphere_intersect orig dir s) >? nearest_dist st)%fl
  then sphere_won orig dir s
  else st.
Proof.
  unfold sphere_step, sphere_won.
  destruct (ray_sphere_intersect orig dir s) as [i d]; simpl.
  destruct i; simpl; [|reflexivity].
  destruct (d >? nearest_dist st)%fl; reflexivity.
Qed.

(** C3, as the code has it.  The loop skips a sphere only when it is missed
    or when its distance is greater than nearest_dist; a sphere whose
    distance is not greater replaces the recorded point, normal and
    material, and so does one at exactly the recorded distance.  Only the
    plane, tested first against the sentinel, needs d < nearest_dist. *)
Theorem sphere_step_replaces (orig dir : vec3) (st : nearest) (s : Sphere) :
  let d := snd (ray_sphere_intersect orig dir s) in
  (fst (ray_sphere_intersect orig dir s) = true ->
   (d >? nearest_dist st)%fl = false ->
   sphere_step orig dir st s = sphere_won orig dir s)
  /\ (fst (ray_sphere_intersect orig dir s) = true ->
      d = nearest_dist st -> (d >? d)%fl = false ->
      sphere_step orig dir st s = sphere_won orig dir s)
  /\ (fst (ray_sphere_intersect orig dir s) = false
      \/ (d >? nearest_dist st)%fl = true ->
      sphere_step orig dir st s = st)
  /\ (plane_accept orig dir st = true ->
      (plane_dist orig dir <? nearest_dist st)%fl = true).
Proof.
  intros d. rewrite sphere_step_cases. fold d. unfold sphere_won. fold d.
  repeat split.
  - intros -> ->; reflexivity.
  - intros -> <- ->; reflexivity.
  - intros [-> | ->]; [reflexivity |].
    simpl. rewrite andb_false_r. reflexivity.
  - unfold plane_accept. intros H.
    apply andb_prop in H. destruct H as [_ H].
    cbv zeta in H.
    do 3 (apply andb_prop in H; destruct H as [H _]).
    apply andb_prop in H. destruct H as [_ H]. exact H.
Qed.

(** ** Shading *)

(* a call that is not terminal returns the value of the final statement *)
Lemma cast_ray_shading (fuel : nat) (sph : list Sphere) (orig dir : vec3)
    (depth : Z) (c : vec3) :
  let r := scene_intersect sph orig dir in
  (depth <= 4)%Z -> hit_of r = true ->
  cast_ray (S fuel) sph orig dir depth = Some c ->
  exists v reflect_color refract_color,
    refract fuel dir (normal_of r) (refractive_index (material_of r))
            (i2f 1) = Some v
    /\ cast_ray fuel sph (point_of r)
                (normalized (reflect dir (normal_of r))) (depth + 1)
       = Some reflect_color
    /\ cast_ray fuel sph (point_of r) (normalized v) (depth + 1)
       = Some refract_color
    /\ c = shade (material_of r)
                 (fold_left
                    (light_step sph (point_of r) (normal_of r) dir
                                (material_of r))
                    lights (i2f 0, i2f 0))
                 reflect_color refract_color.
Proof.
  intros r Hd Hh. rewrite cast_ray_eq. fold r. cbv zeta.
  rewrite Hh.
  replace (depth >? 4)%Z with false
    by (symmetry; rewrite Z.gtb_ltb; apply Z.ltb_ge; exact Hd).
  cbn [orb negb].
  destruct (refract fuel dir (normal_of r) (refractive_index (material_of r))
                    (i2f 1)) as [v|] eqn:Ev; [|intros [=]].
  destruct (cast_ray fuel sph (point_of r)
                     (normalized (reflect dir (normal_of r))) (depth + 1))
    as [rc|] eqn:Erc; [|intros [=]].
  destruct (cast_ray fuel sph (point_of r) (normalized v) (depth + 1))
    as [fc|] eqn:Efc; [|intros [=]].
  intros Hc. injection Hc as Hc. subst c.
  exists v, rc, fc. repeat split; assumption || reflexivity.
Qed.

(** C6.  In a call of cast_ray that shades a hit, the two intensities are
    accumulated over the lights by [light_step], which casts the shadow ray
    with scene_intersect on the same scene, from the hit point toward the
    light: a light is skipped when that ray hits something strictly closer
    to the hit point than the light is, and otherwise adds max(0,
    light_dir.N) to the diffuse intensity and max(0, -reflect(-light_dir,
    N).dir) raised to the specular exponent to the specular intensity. *)
Theorem light_step_shadow (sph : list Sphere) (point N dir : vec3)
    (m : Material) (acc : float * float) (light : vec3) :
  let light_dir := normalized (vsub light point) in
  let shadow := scene_intersect sph point light_dir in
  let occluded :=
    hit_of shadow
    && (norm (vsub (point_of shadow) point) <? norm (vsub light point))%fl in
  (occluded = true -> light_step sph point N dir m acc light = acc)
  /\ (occluded = false ->
      light_step sph point N dir m acc light =
      ((fst acc + fmax (i2f 0) (dot light_dir N))%fl,
       (snd acc
        + fpow (fmax (i2f 0) (dot (vneg (reflect (vneg light_dir) N)) dir))
               (specular_exponent m))%fl))
  /\ (forall fuel orig depth c,
        point = point_of (scene_intersect sph orig dir) ->
        N = normal_of (scene_intersect sph orig dir) ->
        m = material_of (scene_intersect sph orig dir) ->
        (depth <= 4)%Z -> hit_of (scene_intersect sph orig dir) = true ->
        cast_ray (S fuel) sph orig dir depth = Some c ->
        exists reflect_color refract_color,
          c = shade m (fold_left (light_step sph point N dir m) lights
                                 (i2f 0, i2f 0))
                    reflect_color refract_color).
Proof.
  intros light_dir shadow occluded.
  assert (Hstep : light_step sph point N dir m acc light =
                  if occluded then acc
                  else ((fst acc + fmax (i2f 0) (dot light_dir N))%fl,
                        (snd acc
                         + fpow (fmax (i2f 0)
                                   (dot (vneg (reflect (vneg light_dir) N))
                                        dir))
                                (specular_exponent m))%fl)).
  { unfold light_step, occluded, shadow, light_dir.
    destruct (scene_intersect sph point (normalized (vsub light point)))
      as [[[hit sp] tn] tm]; reflexivity. }
  repeat split.
  - intros E. rewrite Hstep, E. reflexivity.
  - intros E. rewrite Hstep, E. reflexivity.
  - intros fuel orig depth c -> -> -> Hd Hh Hc.
    destruct (cast_ray_shading fuel sph orig dir Hd Hh Hc)
      as (v & rc & fc & _ & _ & _ & ->).
    exists rc, fc. reflexivity.
Qed.

(** ** The material of the checkerboard *)

(* a plane hit stays the recorded hit when every sphere is skipped *)
Lemma fold_sphere_step_skip (orig dir : vec3) (sph : list Sphere) :
  forall st,
    (forall s, In s sph ->
       fst (ray_sphere_intersect orig dir s) = false
       \/ (snd (ray_sphere_intersect orig dir s) >? nearest_dist st)%fl
          = true) ->
    fold_left (sphere_step orig dir) sph st = st.
Proof.
  induction sph as [|s sph IH]; intros st Hskip; simpl.
  - reflexivity.
  - assert (Hs : sphere_step orig dir st s = st).
    { rewrite sphere_step_cases.
      destruct (Hskip s (or_introl eq_refl)) as [-> | ->];
        [reflexivity | simpl; rewrite andb_false_r; reflexivity]. }
    rewrite Hs. apply IH. intros s' Hs'. apply Hskip. right; exact Hs'.
Qed.

(** C10.  When the checkerboard is hit and no sphere replaces it,
    scene_intersect returns the default-constructed Material with only
    diffuse_color assigned: refractive index 1, specular exponent 0 and
    albedo {2, 0, 0, 0}.  In cast_ray the diffuse term of such a hit is
    therefore scaled by 2 and the specular, reflection and refraction terms
    by 0. *)
Theorem checkerboard_material (sph : list Sphere) (orig dir : vec3) :
  plane_accept orig dir nearest_init = true ->
  (forall s, In s sph ->
     fst (ray_sphere_intersect orig dir s) = false
     \/ (snd (ray_sphere_intersect orig dir s) >? plane_dist orig dir)%fl
        = true) ->
  let p := plane_point orig dir in
  let m := mkMaterial (i2f 1) (i2f 2, i2f 0, i2f 0, i2f 0)
                      (checker_color p) (i2f 0) in
  scene_intersect sph orig dir =
    ((plane_dist orig dir <? i2f 1000)%fl, p, ivec 0 1 0, m)
  /\ refractive_index m = i2f 1
  /\ specular_exponent m = i2f 0
  /\ albedo m = (i2f 2, i2f 0, i2f 0, i2f 0)
  /\ (forall fuel depth c,
        (depth <= 4)%Z -> (plane_dist orig dir <? i2f 1000)%fl = true ->
        cast_ray (S fuel) sph orig dir depth = Some c ->
        exists intensity reflect_color refract_color,
          intensity = fold_left (light_step sph p (ivec 0 1 0) dir m) lights
                                (i2f 0, i2f 0)
          /\ c = vadd (vadd (vadd
                   (vscale (vscale (checker_color p) (fst intensity))
                           (i2f 2))
                   (vscale (vscale (qvec 1 1 1) (snd intensity)) (i2f 0)))
                   (vscale reflect_color (i2f 0)))
                   (vscale refract_color (i2f 0))).
Proof.
  intros Hplane Hskip p m.
  assert (Hscene : scene_intersect sph orig dir =
                   ((plane_dist orig dir <? i2f 1000)%fl, p, ivec 0 1 0, m)).
  { unfold scene_intersect, scene_state, plane_step. rewrite Hplane.
    rewrite fold_sphere_step_skip by exact Hskip. reflexivity. }
  repeat split; try exact Hscene.
  intros fuel depth c Hd Hh Hc.
  assert (Hh' : hit_of (scene_intersect sph orig dir) = true)
    by (rewrite Hscene; exact Hh).
  destruct (cast_ray_shading fuel sph orig dir Hd Hh' Hc)
    as (v & rc & fc & _ & _ & _ & ->).
  rewrite Hscene. simpl.
  eexists; exists rc, fc. split; reflexivity.
Qed.

(** ** The recursion of cast_ray *)

Lemma refract_fuel_S (fuel : nat) :
  forall I N eta_t eta_i v,
    refract fuel I N eta_t eta_i = Some v ->
    refract (S fuel) I N eta_t eta_i = Some v.
Proof.
  induction fuel as [|fuel IH]; intros I N eta_t eta_i v H.
  - discriminate H.
  - cbn [refract] in H |- *.
    destruct (cosi_of I N <? i2f 0)%fl; [apply IH|]; exact H.
Qed.


(* a call that returned with [fuel] returns the same with more *)
Lemma cast_ray_fuel_S (fuel : nat) :
  forall sph orig dir depth c,
    cast_ray fuel sph orig dir depth = Some c ->
    cast_ray (S fuel) sph orig dir depth = Some c.
Proof.
  induction fuel as [|fuel IH]; intros sph orig dir depth c H;
    [discriminate H|].
  rewrite cast_ray_eq in H |- *. cbv zeta in H |- *.
  destruct ((depth >? 4)%Z || negb (hit_of (scene_intersect sph orig dir)));
    [exact H|].
  destruct (refract fuel dir _ _ _) as [v|] eqn:Ev; [|discriminate H].
  rewrite (refract_fuel_S _ _ _ _ _ Ev).
  destruct (cast_ray fuel sph _ (normalized (reflect dir _)) _)
    as [rc|] eqn:Erc; [|discriminate H].
  rewrite (IH _ _ _ _ _ Erc).
  destruct (cast_ray fuel sph _ (normalized v) _) as [fc|] eqn:Efc;
    [|discriminate H].
  rewrite (IH _ _ _ _ _ Efc). exact H.
Qed.





(** ** Where the recorded hit comes from *)

Lemma fold_sphere_step_cases (orig dir : vec3) (sph : list Sphere) :
  forall st,
    fold_left (sphere_step orig dir) sph st = st
    \/ exists s, In s sph
                 /\ fst (ray_sphere_intersect orig dir s) = true
                 /\ fold_left (sphere_step orig dir) sph st
                    = sphere_won orig dir s.
Proof.
  induction sph as [|s sph IH]; intros st; simpl; [left; reflexivity|].
  destruct (IH (sphere_step orig dir st s)) as [E | (s' & Hin & Hhit & E)].
  - rewrite E, sphere_step_cases.
    destruct (fst (ray_sphere_intersect orig dir s)) eqn:Hhit;
      [|left; reflexivity].
    destruct (snd (ray_sphere_intersect orig dir s) >? nearest_dist st)%fl;
      [left; reflexivity|].
    right. exists s. repeat split; auto.
  - right. exists s'. repeat split; auto.
Qed.

Lemma scene_state_cases (sph : list Sphere) (orig dir : vec3) :
  scene_state sph orig dir = nearest_init
  \/ scene_state sph orig dir = plane_won orig dir
  \/ exists s, In s sph
               /\ fst (ray_sphere_intersect orig dir s) = true
               /\ scene_state sph orig dir = sphere_won orig dir s.
Proof.
  unfold scene_state.
  destruct (fold_sphere_step_cases orig dir sph
              (plane_step orig dir nearest_init)) as [E | H].
  - rewrite E. unfold plane_step.
    destruct (plane_accept orig dir nearest_init);
      [right; left | left]; reflexivity.
  - right; right. exact H.
Qed.

End Generic.

(** * Properties in exact arithmetic *)

Module OnReals.

#[local] Existing Instance Real.arith.
Local Open Scope R_scope.

Ltac real_ops :=
  cbn [float double fadd fsub fmul fdiv fneg fabs fsqrt fpow flt dadd dmul
       dlt f2d d2f i2f i2d d2i dlit Real.arith] in *.

Ltac vec_ops :=
  unfold reflect, normalized, norm, dot, cross, vscale, vadd, vsub, vneg,
         ivec in *;
  cbn [x y z] in *; real_ops.

Lemma ltb_true (a b : R) : Real.ltb a b = true <-> a < b.
Proof.
  unfold Real.ltb. destruct (Rlt_dec a b); split; intros H;
    try reflexivity; try assumption; try discriminate; contradiction.
Qed.

Lemma ltb_false (a b : R) : Real.ltb a b = false <-> b <= a.
Proof.
  unfold Real.ltb. destruct (Rlt_dec a b); split; intros H;
    try reflexivity; try discriminate; lra.
Qed.

Lemma sum_squares_nonneg (a b c : R) : 0 <= a * a + b * b + c * c.
Proof. nra. Qed.

(* a vector has norm 1 exactly when its dot product with itself is 1 *)
Lemma norm_1_dot (u : vec3) : norm u = 1 <-> dot u u = 1.
Proof.
  vec_ops. split; intros H.
  - rewrite <- (sqrt_sqrt _ (sum_squares_nonneg (x u) (y u) (z u))).
    rewrite H. ring.
  - rewrite H. apply sqrt_1.
Qed.


(** ** refract returns *)

Lemma dot_vneg_r (I N : vec3) : dot I (vneg N) = - dot I N.
Proof. vec_ops. ring. Qed.

(* the clamped cosine changes sign with the normal *)
Lemma cosi_of_flip (I N : vec3) :
  cosi_of I N < 0 -> 0 <= cosi_of I (vneg N).
Proof.
  unfold cosi_of, fmax, fmin. rewrite dot_vneg_r.
  generalize (dot I N). intros q. real_ops.
  repeat match goal with
         | |- context [Real.ltb ?a ?b] =>
             let E := fresh "E" in
             destruct (Real.ltb a b) eqn:E;
             [apply ltb_true in E | apply ltb_false in E]
         end; lra.
Qed.


(** ** Unit normals *)

Lemma norm_normalized (u : vec3) :
  norm u <> 0 -> norm (normalized u) = 1.
Proof.
  intros Hn. apply norm_1_dot.
  assert (Hs : norm u * norm u = dot u u).
  { vec_ops. apply sqrt_sqrt, sum_squares_nonneg. }
  unfold normalized. revert Hn Hs. generalize (norm u). intros n Hn Hs.
  destruct u as [ux uy uz]. vec_ops.
  replace (ux * (1 / n) * (ux * (1 / n)) + uy * (1 / n) * (uy * (1 / n))
           + uz * (1 / n) * (uz * (1 / n)))
    with ((ux * ux + uy * uy + uz * uz) * (/ n * / n)) by (field; exact Hn).
  rewrite <- Hs. field. exact Hn.
Qed.


(* along a unit direction, the point at distance d is on the sphere as soon
   as (d - tca)^2 = radius^2 - d2 *)
Lemma point_on_sphere (orig dir : vec3) (s : Sphere) (d : R) :
  dot dir dir = 1 ->
  let L := vsub (center s) orig in
  let tca := dot L dir in
  let d2 := dot L L - tca * tca in
  (d - tca) * (d - tca) = radius s * radius s - d2 ->
  dot (vsub (vadd orig (vscale dir d)) (center s))
      (vsub (vadd orig (vscale dir d)) (center s)) = radius s * radius s.
Proof.
  intros Hdir L tca d2 Hd.
  assert (Hexp : dot (vsub (vadd orig (vscale dir d)) (center s))
                     (vsub (vadd orig (vscale dir d)) (center s))
                 = d * d * dot dir dir - 2 * d * tca + dot L L).
  { unfold tca, L. destruct orig, dir, (center s). vec_ops. ring. }
  rewrite Hexp, Hdir. unfold d2 in Hd. real_ops. lra.
Qed.

(* t0 and t1 of ray_sphere_intersect are the near and the far distance at
   which a unit direction crosses the sphere *)
Lemma near_far_on_sphere (orig dir : vec3) (s : Sphere) :
  dot dir dir = 1 ->
  let L := vsub (center s) orig in
  let tca := dot L dir in
  let d2 := dot L L - tca * tca in
  let thc := sqrt (radius s * radius s - d2) in
  d2 <= radius s * radius s ->
  tca - thc <= tca + thc
  /\ (forall d, d = tca - thc \/ d = tca + thc ->
        dot (vsub (vadd orig (vscale dir d)) (center s))
            (vsub (vadd orig (vscale dir d)) (center s))
        = radius s * radius s).
Proof.
  intros Hdir L tca d2 thc Hd2.
  assert (Hthc : thc * thc = radius s * radius s - d2)
    by (apply sqrt_sqrt; lra).
  split.
  - pose proof (sqrt_pos (radius s * radius s - d2)). fold thc in H. lra.
  - intros d Hd. apply point_on_sphere; [exact Hdir|].
    fold L; fold tca; fold d2. destruct Hd as [-> | ->]; lra.
Qed.

(* along a unit direction, a reported distance leads onto the sphere *)
Lemma sphere_hit_on_sphere (orig dir : vec3) (s : Sphere) :
  dot dir dir = 1 ->
  fst (ray_sphere_intersect orig dir s) = true ->
  let p := vadd orig (vscale dir (snd (ray_sphere_intersect orig dir s))) in
  dot (vsub p (center s)) (vsub p (center s)) = radius s * radius s.
Proof.
  intros Hdir Hhit.
  destruct (ray_sphere_intersect_hit orig dir s Hhit) as [Hd2 _].
  revert Hhit. unfold ray_sphere_intersect. rewrite Hd2.
  apply ltb_false in Hd2.
  real_ops.
  destruct (@near_far_on_sphere orig dir s Hdir Hd2) as [_ Hon].
  match goal with
  | |- context [Real.ltb ?e ?t] => destruct (Real.ltb e t)
  end; simpl.
  - intros _. apply Hon. left. reflexivity.
  - match goal with
    | |- context [Real.ltb ?e ?t] => destruct (Real.ltb e t)
    end; simpl; [|discriminate].
    intros _. apply Hon. right. reflexivity.
Qed.

Lemma sentinel_not_hit : flt (d2f (dlit 1e10)) (i2f 1000) = false.
Proof.
  real_ops. apply ltb_false. unfold Q2R. simpl. lra.
Qed.


(** ** The checkerboard pattern *)




Lemma floor_bounds (r : R) :
  IZR (Real.floor r) <= r < IZR (Real.floor r) + 1.
Proof.
  unfold Real.floor. destruct (base_Int_part r). lra.
Qed.



Lemma trunc_nonneg (r : R) : 0 <= r -> Real.trunc r = Real.floor r.
Proof.
  intros H. unfold Real.trunc. destruct (Rle_dec 0 r);
    [reflexivity | contradiction].
Qed.


Lemma half_lit : Q2R 0.5 = / 2.
Proof. unfold Q2R. simpl. lra. Qed.



(** ** The statements at concrete vectors, points and rays *)

Lemma norm_axis (a b c : Z) :
  (a * a + b * b + c * c = 1)%Z -> norm (ivec a b c) = 1.
Proof.
  intros H. apply norm_1_dot. vec_ops.
  rewrite <- !mult_IZR, <- !plus_IZR, H. reflexivity.
Qed.




(* the sphere of one_sphere_scene is met at distance 2 *)
Lemma one_sphere_distance :
  ray_sphere_intersect camera forward ivory_ball = (true, i2f 2).
Proof.
  unfold ray_sphere_intersect, camera, forward, eps, ivory_ball.
  cbn [center radius]. vec_ops.
  replace ((0 - 0) * (0 - 0) + (0 - 0) * (0 - 0) + (-4 - 0) * (-4 - 0)
           - ((0 - 0) * 0 + (0 - 0) * 0 + (-4 - 0) * -1)
             * ((0 - 0) * 0 + (0 - 0) * 0 + (-4 - 0) * -1))
    with 0 by lra.
  replace ((0 - 0) * 0 + (0 - 0) * 0 + (-4 - 0) * -1) with 4 by lra.
  replace (2 * 2 - 0) with (2 * 2) by lra.
  rewrite sqrt_square by lra.
  rewrite (proj2 (ltb_false (2 * 2) 0)) by lra.
  rewrite (proj2 (ltb_true (Q2R 0.001) (4 - 2)))
    by (unfold Q2R; simpl; lra).
  f_equal. lra.
Qed.

Lemma one_sphere_hit :
  hit_of (scene_intersect one_sphere_scene camera forward) = true.
Proof.
  unfold scene_intersect, hit_of, scene_state, one_sphere_scene.
  cbn [fold_left].
  assert (Hplane : plane_step camera forward nearest_init = nearest_init).
  { unfold plane_step, plane_accept, camera, forward, eps. vec_ops.
    rewrite Rabs_R0.
    rewrite (proj2 (ltb_false (Q2R 0.001) 0))
      by (unfold Q2R; simpl; lra).
    reflexivity. }
  rewrite Hplane, sphere_step_cases, one_sphere_distance.
  cbn [fst snd nearest_dist nearest_init]. real_ops.
  rewrite (proj2 (ltb_false (Q2R 1e10) 2)) by (unfold Q2R; simpl; lra).
  cbn [andb negb]. unfold sphere_won. cbn [nearest_dist].
  rewrite one_sphere_distance. cbn [snd]. real_ops.
  apply ltb_true. lra.
Qed.


End OnReals.

(** * The code on machine numbers *)

Module OnFloats.

#[local] Existing Instance IEEE.binary32.

Ltac run := vm_compute; try reflexivity; try discriminate.
Ltac conjs := repeat match goal with |- _ /\ _ => split end.

(* the ray that leaves the camera straight up meets no sphere *)
Lemma miss_up (s : Sphere) :
  In s spheres -> fst (ray_sphere_intersect camera upward s) = false.
Proof.
  intros [<- | [<- | [<- | [<- | []]]]]; run.
Qed.

(** ** Rays on which the code differs from the specification *)

(** C2: with I = (0, 0, 1), N = (0, 1, 0), eta_t = 1 and eta_i = 2 the
    cosine is 0, the discriminant is 1 - 4 = -3, and refract returns
    (1, 0, 0), which is not I. *)
Lemma refract_not_incident :
  (discriminant (i2f 2 / i2f 1)%fl (cosi_of (ivec 0 0 1) upward) <? i2f 0)%fl
  = true
  /\ refract 1 (ivec 0 0 1) upward (i2f 1) (i2f 2) = Some (ivec 1 0 0)
  /\ refract 1 (ivec 0 0 1) upward (i2f 1) (i2f 2) <> Some (ivec 0 0 1).
Proof.
  conjs; run.
Qed.

(** C3: from the camera along -z, ivory_ball (center (0,0,-4), radius 2)
    and mirror_ball after it in the array (center (0,0,-5), radius 3) are
    both met at distance 2; scene_intersect returns the material of the
    later one. *)
Lemma later_sphere_wins_tie :
  ray_sphere_intersect camera forward ivory_ball = (true, i2f 2)
  /\ ray_sphere_intersect camera forward mirror_ball = (true, i2f 2)
  /\ material_of (scene_intersect tangent_scene camera forward) = mirror
  /\ material_of (scene_intersect tangent_scene camera forward) <> ivory.
Proof.
  conjs; run.
Qed.



(** ** Runs of the code *)

(* two units further along x the class changes *)
Lemma checker_next_cell :
  checker_class on_board = 1%Z
  /\ checker_class (ivec 2 (-4) (-15)) = 0%Z
  /\ checker_color (ivec 2 (-4) (-15)) = qvec 0.3 0.2 0.1.
Proof. conjs; run. Qed.

(* inside six glass shells the bounds of 63 calls and 6 levels are met *)
Lemma nested_scene_calls :
  option_map (fun ct => (calls_count (snd ct), calls_height (snd ct),
                         calls_shading (snd ct)))
             (cast_ray_traced 7 nested_scene camera forward 0)
  = Some (63%nat, 6%nat, 5%nat).
Proof. run. Qed.

(* a NaN normal keeps refract calling itself: no bound is enough *)
Lemma refract_nan (fuel : nat) (I : vec3) (eta_t eta_i : float) :
  refract fuel I (mkvec3 S754_nan S754_nan S754_nan) eta_t eta_i = None.
Proof.
  revert eta_t eta_i.
  induction fuel as [|fuel IH]; intros eta_t eta_i; [reflexivity|].
  cbn [refract].
  assert (Hdot : dot I (mkvec3 S754_nan S754_nan S754_nan) = S754_nan).
  { destruct I as [[| | |] [| | |] [| | |]]; reflexivity. }
  unfold cosi_of. rewrite Hdot.
  match goal with
  | |- (if ?c then _ else _) = _ =>
      replace c with true by (vm_compute; reflexivity)
  end.
  apply IH.
Qed.

(* the ray through the center of the speck is reported to hit it at the
   center itself, with a NaN normal, and cast_ray does not return *)
Lemma speck_no_return (fuel : nat) :
  scene_intersect IEEE.speck_scene camera forward
  = (true, ivec 0 0 (-5), mkvec3 S754_nan S754_nan S754_nan, glass)
  /\ cast_ray fuel IEEE.speck_scene camera forward 0 = None.
Proof.
  assert (E : scene_intersect IEEE.speck_scene camera forward
              = (true, ivec 0 0 (-5), mkvec3 S754_nan S754_nan S754_nan,
                 glass)) by run.
  split; [exact E|].
  destruct fuel as [|fuel]; [reflexivity|].
  rewrite cast_ray_eq. cbv zeta. rewrite E.
  cbn [hit_of normal_of material_of negb orb Z.gtb Z.compare].
  rewrite refract_nan. reflexivity.
Qed.

(** ** Rounding

    The facts of [OnReals] hold on machine numbers up to rounding only.
    [slanted] and the normal met along the camera axis both have a computed
    length of exactly 1. *)

Lemma normal_length_rounded :
  norm slanted = i2f 1
  /\ hit_of (scene_intersect spheres camera slanted) = true
  /\ norm (normal_of (scene_intersect spheres camera slanted))
     = S754_finite false 8388609 (-23)
  /\ norm (normal_of (scene_intersect spheres camera slanted)) <> i2f 1.
Proof. conjs; run. Qed.

Lemma reflect_twice_rounded :
  let N := normal_of (scene_intersect spheres camera forward) in
  norm N = i2f 1 /\ norm forward = i2f 1
  /\ reflect (reflect forward N) N
     = mkvec3 (S754_finite true 12582912 (-47))
              (S754_finite true 8388608 (-46)) (i2f (-1))
  /\ reflect (reflect forward N) N <> forward.
Proof. intros N. conjs; run. Qed.

(** ** The general statements at concrete rays *)

Lemma cast_ray_background_witness :
  cast_ray 1 spheres camera forward 5 = Some background
  /\ hit_of (scene_intersect spheres camera upward) = false
  /\ cast_ray 1 spheres camera upward 0 = Some background.
Proof.
  split.
  - apply (proj1 (cast_ray_background 0 spheres camera forward 5)).
    left. lia.
  - apply (proj2 (cast_ray_background 0 spheres camera upward 0)).
    + run.
    + run.
    + exact miss_up.
Defined.

Lemma refract_total_reflection_witness :
  refract 1 (ivec 0 0 1) upward (i2f 1) (i2f 2) = Some (ivec 1 0 0)
  /\ refract 2 (mkvec3 (i2f 1) (qlit 0.5) (i2f 0)) upward (i2f 2) (i2f 1)
     = Some (ivec 1 0 0).
Proof.
  split.
  - apply (proj1 (refract_total_reflection 0 (ivec 0 0 1) upward
                    (i2f 1) (i2f 2))); run.
  - apply (proj2 (refract_total_reflection 0
                    (mkvec3 (i2f 1) (qlit 0.5) (i2f 0)) upward
                    (i2f 2) (i2f 1))); run.
Defined.

Lemma ray_sphere_intersect_cases_witness :
  ray_sphere_intersect camera upward ivory_ball = (false, i2f 0)
  /\ ray_sphere_intersect camera forward ivory_ball = (true, i2f 2)
  /\ ray_sphere_intersect camera forward (glass_shell 10) = (true, i2f 10)
  /\ ray_sphere_intersect camera (ivec 0 0 1) ivory_ball = (false, i2f 0)
  /\ (f2d (snd (ray_sphere_intersect camera forward ivory_ball)) >? eps)%db
     = true.
Proof.
  conjs.
  - pose proof (ray_sphere_intersect_cases camera upward ivory_ball) as H.
    cbv zeta in H. destruct H as (H & _). rewrite H; run.
  - pose proof (ray_sphere_intersect_cases camera forward ivory_ball) as H.
    cbv zeta in H. destruct H as (_ & H & _). rewrite H; run.
  - pose proof (ray_sphere_intersect_cases camera forward (glass_shell 10))
      as H.
    cbv zeta in H. destruct H as (_ & _ & H & _). rewrite H; run.
  - pose proof (ray_sphere_intersect_cases camera (ivec 0 0 1) ivory_ball)
      as H.
    cbv zeta in H. destruct H as (_ & _ & _ & H & _). rewrite H; run.
  - pose proof (ray_sphere_intersect_cases camera forward ivory_ball) as H.
    cbv zeta in H. destruct H as (_ & _ & _ & _ & H).
    apply H. run.
Defined.

Lemma sphere_step_replaces_witness :
  let s1 := ivory_ball in
  let s2 := mirror_ball in
  sphere_step camera forward nearest_init s1 = sphere_won camera forward s1
  /\ sphere_step camera forward (sphere_won camera forward s1) s2
     = sphere_won camera forward s2
  /\ sphere_step camera upward nearest_init s1 = nearest_init
  /\ (plane_dist above_board downward <? nearest_dist nearest_init)%fl
     = true.
Proof.
  intros s1 s2. conjs.
  - pose proof (sphere_step_replaces camera forward nearest_init s1) as H.
    cbv zeta in H. destruct H as (H & _). apply H; run.
  - pose proof (sphere_step_replaces camera forward
                  (sphere_won camera forward s1) s2) as H.
    cbv zeta in H. destruct H as (_ & H & _). apply H; run.
  - pose proof (sphere_step_replaces camera upward nearest_init s1) as H.
    cbv zeta in H. destruct H as (_ & _ & H & _). apply H. left. run.
  - pose proof (sphere_step_replaces above_board downward nearest_init s1)
      as H.
    cbv zeta in H. destruct H as (_ & _ & _ & H). apply H. run.
Defined.

Lemma light_step_shadow_witness :
  let p := on_board in
  let m := set_diffuse_color default_Material (qvec 0.3 0.3 0.3) in
  light_step spheres p upward downward m (i2f 0, i2f 0) (ivec (-20) 20 20)
  = (i2f 0, i2f 0)
  /\ light_step spheres p upward downward m (i2f 0, i2f 0) (ivec 30 20 30)
     = ((i2f 0 + fmax (i2f 0)
                   (dot (normalized (vsub (ivec 30 20 30) p)) upward))%fl,
        (i2f 0 + fpow (fmax (i2f 0)
                   (dot (vneg (reflect (vneg (normalized
                            (vsub (ivec 30 20 30) p))) upward)) downward))
                   (i2f 0))%fl)
  /\ match cast_ray 7 spheres above_board downward 0 with
     | Some c =>
         exists reflect_color refract_color,
           c = shade m
                 (fold_left (light_step spheres p upward downward m) lights
                            (i2f 0, i2f 0))
                 reflect_color refract_color
     | None => False
     end.
Proof.
  intros p m. conjs.
  - pose proof (light_step_shadow spheres p upward downward m (i2f 0, i2f 0)
                  (ivec (-20) 20 20)) as H.
    cbv zeta in H. destruct H as (H & _). apply H. run.
  - pose proof (light_step_shadow spheres p upward downward m (i2f 0, i2f 0)
                  (ivec 30 20 30)) as H.
    cbv zeta in H. destruct H as (_ & H & _). apply H. run.
  - pose proof (light_step_shadow spheres p upward downward m (i2f 0, i2f 0)
                  (ivec 30 20 30)) as H.
    cbv zeta in H. destruct H as (_ & _ & H).
    destruct (cast_ray 7 spheres above_board downward 0) as [c|] eqn:E.
    + apply (H 6%nat above_board 0%Z c); try exact E; run.
    + vm_compute in E. discriminate E.
Defined.

Lemma checkerboard_material_witness :
  scene_intersect spheres above_board downward
  = (true, on_board, upward,
     mkMaterial (i2f 1) (i2f 2, i2f 0, i2f 0, i2f 0) (qvec 0.3 0.3 0.3)
                (i2f 0)).
Proof.
  assert (Hp : plane_accept above_board downward nearest_init = true)
    by run.
  assert (Hs : forall s, In s spheres ->
             fst (ray_sphere_intersect above_board downward s) = false
             \/ (snd (ray_sphere_intersect above_board downward s)
                 >? plane_dist above_board downward)%fl = true)
    by (intros s [<- | [<- | [<- | [<- | []]]]]; left; run).
  pose proof (checkerboard_material spheres above_board downward Hp Hs)
    as H.
  cbv zeta in H. destruct H as (H & _). rewrite H. run.
Defined.

End OnFloats.

(** * The remaining code, in every arithmetic *)

Section MoreGeneric.

Context {A : Arith}.

(** ** scene_intersect: where the reported hit lies *)

(* the three origins of the recorded hit, with the test the plane passed *)
Lemma scene_state_origin (sph : list Sphere) (orig dir : vec3) :
  scene_state sph orig dir = nearest_init
  \/ (plane_accept orig dir nearest_init = true
      /\ scene_state sph orig dir = plane_won orig dir)
  \/ exists s, In s sph
               /\ fst (ray_sphere_intersect orig dir s) = true
               /\ scene_state sph orig dir = sphere_won orig dir s.
Proof.
  unfold scene_state.
  destruct (fold_sphere_step_cases orig dir sph
              (plane_step orig dir nearest_init)) as [E | H].
  - rewrite E. unfold plane_step.
    destruct (plane_accept orig dir nearest_init);
      [right; left; split | left]; reflexivity.
  - right; right. exact H.
Qed.

(** A reported hit lies on the ray: the point returned is orig + dir * d
    for the recorded distance d, and d passed both the test against .001
    and the final test against 1000. *)
Theorem hit_on_ray (sph : list Sphere) (orig dir : vec3) :
  (d2f (dlit 1e10) <? i2f 1000)%fl = false ->
  hit_of (scene_intersect sph orig dir) = true ->
  let d := nearest_dist (scene_state sph orig dir) in
  point_of (scene_intersect sph orig dir) = vadd orig (vscale dir d)
  /\ (f2d d >? eps)%db = true
  /\ (d <? i2f 1000)%fl = true.
Proof.
  intros Hsent. unfold scene_intersect, hit_of, point_of.
  destruct (scene_state_origin sph orig dir)
    as [E | [[Hacc E] | (s & Hin & Hs & E)]].
  - rewrite E. cbn [nearest_dist nearest_init]. rewrite Hsent. discriminate.
  - rewrite E. cbn [nearest_dist pt plane_won]. intros Hd.
    repeat split; try assumption; try reflexivity.
    unfold plane_accept in Hacc. apply andb_prop in Hacc.
    destruct Hacc as [_ Hacc]. cbv zeta in Hacc.
    do 4 (apply andb_prop in Hacc; destruct Hacc as [Hacc _]).
    exact Hacc.
  - rewrite E. cbn [nearest_dist pt sphere_won]. intros Hd.
    repeat split; try assumption; try reflexivity.
    apply (ray_sphere_intersect_hit orig dir s Hs).
Qed.

(** ** print_colored_square: the color pair of a color *)

(** With each of r*5, g*5, b*5 truncated to a level from 0 to 5, the color
    pair lies between 16 and 231, and two colors get the same pair only
    when their three levels agree. *)
Theorem color_index_levels (r g b r' g' b' : float) :
  (0 <= level r <= 5)%Z -> (0 <= level g <= 5)%Z ->
  (0 <= level b <= 5)%Z ->
  (16 <= color_index r g b <= 231)%Z
  /\ ((0 <= level r' <= 5)%Z -> (0 <= level g' <= 5)%Z ->
      (0 <= level b' <= 5)%Z ->
      color_index r g b = color_index r' g' b' ->
      level r = level r' /\ level g = level g' /\ level b = level b').
Proof.
  unfold color_index. intros Hr Hg Hb. split; [lia|].
  intros Hr' Hg' Hb' E. lia.
Qed.

(* the pairs that main initialises are those from 16 to 231 *)
Lemma init_pairs_spec (i : Z) : In i init_pairs <-> (16 <= i < 232)%Z.
Proof.
  unfold init_pairs, range. rewrite in_map_iff. split.
  - intros (k & <- & Hk). apply in_map_iff in Hk.
    destruct Hk as (n & <- & Hn). apply in_seq in Hn.
    change (Z.to_nat (232 - 16)) with 216%nat in Hn. lia.
  - intros Hi. exists (i - 16)%Z. split; [lia|].
    apply in_map_iff. exists (Z.to_nat (i - 16)). split; [lia|].
    apply in_seq. change (Z.to_nat (232 - 16)) with 216%nat. lia.
Qed.

End MoreGeneric.

(** ** render: from the pixels to the printed grid *)

Section RenderGeneric.

Context {A : Arith} {M : ArithMore A}.






Variable fuel : nat.
Variable sph : list Sphere.
Variables w h : nat.
Variable col : nat -> nat -> vec3.

Hypothesis casts :
  forall c r, (c < w)%nat -> (r < h)%nat ->
    cast_ray fuel sph (ivec 0 0 0)
             (pixel_dir (Z.of_nat w) (Z.of_nat h) (Z.of_nat c) (Z.of_nat r))
             0
    = Some (col c r).





End RenderGeneric.

Section MoreGeneric2.

Context {A : Arith} {M : ArithMore A}.




End MoreGeneric2.

(** ** animate: what does not move *)

Section AnimateGeneric.

Context {A : Arith} {M : ArithMore A} {T : TrigArith A}.

Lemma set_nth_length {U : Type} (l : list U) (i : nat) (v : U) :
  length (set_nth l i v) = length l.
Proof.
  revert i. induction l as [|a l IH]; intros [|i]; simpl; auto.
Qed.

Lemma set_nth_other {U : Type} (l : list U) (i j : nat) (v : U) :
  i <> j -> nth_error (set_nth l i v) j = nth_error l j.
Proof.
  revert i j. induction l as [|a l IH]; intros [|i] [|j] H; simpl; auto.
  contradiction.
Qed.

(* replacing a cell by one with the same image under f keeps map f *)
Lemma set_nth_map {U V : Type} (f : U -> V) (l : list U) (i : nat)
    (u v : U) :
  nth_error l i = Some u -> f v = f u ->
  map f (set_nth l i v) = map f l.
Proof.
  revert i. induction l as [|a l IH]; intros [|i] Hu Hf; simpl in *;
    try discriminate.
  - injection Hu as ->. rewrite Hf. reflexivity.
  - rewrite (IH i Hu Hf). reflexivity.
Qed.

Lemma turn_keeps (sph : list Sphere) (i : nat) (pivot : vec3)
    (aX aY aZ : float) :
  length (turn sph i pivot aX aY aZ) = length sph
  /\ map (@radius float) (turn sph i pivot aX aY aZ)
     = map (@radius float) sph
  /\ map (@material float) (turn sph i pivot aX aY aZ)
     = map (@material float) sph
  /\ (forall j, i <> j ->
        nth_error (turn sph i pivot aX aY aZ) j = nth_error sph j).
Proof.
  unfold turn. destruct (nth_error sph i) as [s|] eqn:E;
    [|repeat split; reflexivity].
  repeat split.
  - apply set_nth_length.
  - apply set_nth_map with (u := s); [exact E | reflexivity].
  - apply set_nth_map with (u := s); [exact E | reflexivity].
  - intros j Hj. apply set_nth_other. exact Hj.
Qed.

(** However many times animate runs, the array keeps its length, every
    sphere keeps its radius and its material, and the spheres at indices 0
    and 1 (and any index other than 2 and 3) stay where they are. *)
Theorem animate_keeps (n : nat) (sph : list Sphere) :
  length (Nat.iter n animate sph) = length sph
  /\ map (@radius float) (Nat.iter n animate sph) = map (@radius float) sph
  /\ map (@material float) (Nat.iter n animate sph)
     = map (@material float) sph
  /\ (forall j, j <> 2%nat -> j <> 3%nat ->
        nth_error (Nat.iter n animate sph) j = nth_error sph j).
Proof.
  induction n as [|n (IHl & IHr & IHm & IHo)];
    [repeat split; reflexivity|].
  change (Nat.iter (S n) animate sph)
    with (animate (Nat.iter n animate sph)).
  remember (Nat.iter n animate sph) as cur eqn:Ecur.
  clear Ecur. unfold animate. cbv zeta.
  set (s1 := turn cur 3 (qvec 1.5 (-2.5) (-20)) (i2f 0) (qlit (-0.8))
                   (qlit 0)).
  destruct (turn_keeps cur 3 (qvec 1.5 (-2.5) (-20))
              (i2f 0) (qlit (-0.8)) (qlit 0)) as (L1 & R1 & M1 & O1).
  fold s1 in L1, R1, M1, O1.
  destruct (turn_keeps s1 2 (qvec 1.5 (-2.5) (-15)) (i2f 0) (qlit 1.6)
              (qlit 0)) as (L2 & R2 & M2 & O2).
  repeat split.
  - rewrite L2, L1. exact IHl.
  - rewrite R2, R1. exact IHr.
  - rewrite M2, M1. exact IHm.
  - intros j H2 H3. rewrite O2, O1 by auto. apply IHo; assumption.
Qed.

End AnimateGeneric.

(** * The remaining code, in exact arithmetic *)

Module MoreReals.

Import OnReals.

#[local] Existing Instance Real.arith.
#[local] Existing Instance RealMore.more.
#[local] Existing Instance RealMore.trig.
Local Open Scope R_scope.

Ltac more_ops :=
  cbn [dsub ddiv dneg dtan trig tcos tsin t_of t2f tadd tsub tmul m_pi
       RealMore.more RealMore.trig] in *.

(** ** vec3 *)

(** normalized returns, for a vector of nonzero length, the vector of
    length 1 with the same direction: the argument is the result scaled by
    its length. *)
Theorem normalized_unit (u : vec3) :
  norm u <> 0 ->
  norm (normalized u) = 1 /\ vscale (normalized u) (norm u) = u.
Proof.
  intros Hn. split; [apply norm_normalized; exact Hn|].
  unfold normalized. revert Hn. generalize (norm u). intros n Hn.
  destruct u as [ux uy uz]. vec_ops. f_equal; field; exact Hn.
Qed.

(** cross(v1, v2) is perpendicular to v1 and to v2, and exchanging the
    arguments reverses it. *)
Theorem cross_perpendicular (v1 v2 : vec3) :
  dot (cross v1 v2) v1 = 0
  /\ dot (cross v1 v2) v2 = 0
  /\ cross v2 v1 = vneg (cross v1 v2).
Proof.
  destruct v1 as [a1 b1 c1], v2 as [a2 b2 c2]. vec_ops.
  repeat split; try ring. f_equal; ring.
Qed.

(** ** reflect *)

(* about a unit normal, reflect keeps the square of the length *)
Lemma reflect_dot (I N : vec3) :
  dot N N = 1 -> dot (reflect I N) (reflect I N) = dot I I.
Proof.
  intros HN. destruct I as [ix iy iz], N as [nx ny nz]. vec_ops.
  set (s := nx * nx + ny * ny + nz * nz) in *.
  set (q := ix * nx + iy * ny + iz * nz).
  replace ((ix - nx * 2 * q) * (ix - nx * 2 * q)
           + (iy - ny * 2 * q) * (iy - ny * 2 * q)
           + (iz - nz * 2 * q) * (iz - nz * 2 * q))
    with (ix * ix + iy * iy + iz * iz - 4 * q * q + 4 * q * q * s)
    by (unfold s, q; ring).
  rewrite HN. ring.
Qed.

(** About a unit normal, reflect keeps the length of any vector I and
    reverses its component along the normal: the angle of reflection is the
    angle of incidence. *)
Theorem reflect_mirror (I N : vec3) :
  norm N = 1 ->
  dot (reflect I N) (reflect I N) = dot I I
  /\ dot (reflect I N) N = - dot I N
  /\ norm (reflect I N) = norm I.
Proof.
  intros HN. apply norm_1_dot in HN.
  pose proof (@reflect_dot I N HN) as H1.
  repeat split; [exact H1 | |].
  - destruct I as [ix iy iz], N as [nx ny nz]. vec_ops.
    set (s := nx * nx + ny * ny + nz * nz) in *.
    set (q := ix * nx + iy * ny + iz * nz).
    replace ((ix - nx * 2 * q) * nx + (iy - ny * 2 * q) * ny
             + (iz - nz * 2 * q) * nz)
      with (q - 2 * q * s) by (unfold s, q; ring).
    rewrite HN. ring.
  - unfold norm. fold (dot (reflect I N) (reflect I N)). fold (dot I I).
    rewrite H1. reflexivity.
Qed.

(** ** refract *)

Lemma dot_bound (I N : vec3) :
  dot I I = 1 -> dot N N = 1 -> -1 <= dot I N <= 1.
Proof.
  destruct I as [ix iy iz], N as [nx ny nz]. vec_ops. intros HI HN.
  pose proof (sum_squares_nonneg (ix - nx) (iy - ny) (iz - nz)) as H1.
  pose proof (sum_squares_nonneg (ix + nx) (iy + ny) (iz + nz)) as H2.
  replace ((ix - nx) * (ix - nx) + (iy - ny) * (iy - ny)
           + (iz - nz) * (iz - nz))
    with (ix * ix + iy * iy + iz * iz + (nx * nx + ny * ny + nz * nz)
          - 2 * (ix * nx + iy * ny + iz * nz)) in H1 by ring.
  replace ((ix + nx) * (ix + nx) + (iy + ny) * (iy + ny)
           + (iz + nz) * (iz + nz))
    with (ix * ix + iy * iy + iz * iz + (nx * nx + ny * ny + nz * nz)
          + 2 * (ix * nx + iy * ny + iz * nz)) in H2 by ring.
  rewrite HI, HN in H1, H2. split; lra.
Qed.

(* min and max leave a cosine between -1 and 1 alone *)
Lemma cosi_of_unclamped (I N : vec3) :
  -1 <= dot I N <= 1 -> cosi_of I N = - dot I N.
Proof.
  unfold cosi_of, fmax, fmin. generalize (dot I N). intros q Hq. real_ops.
  destruct (Real.ltb q (IZR 1)) eqn:E1;
    [apply ltb_true in E1 | apply ltb_false in E1];
    match goal with
    | |- context [Real.ltb ?a ?b] =>
        let E := fresh "E" in
        destruct (Real.ltb a b) eqn:E;
        [apply ltb_true in E | apply ltb_false in E]
    end; lra.
Qed.

(* the clamped cosine lies between -1 and 1 *)
Lemma cosi_of_range (I N : vec3) : -1 <= cosi_of I N <= 1.
Proof.
  unfold cosi_of, fmax, fmin. generalize (dot I N). intros q. real_ops.
  destruct (Real.ltb q (IZR 1)) eqn:E1;
    [apply ltb_true in E1 | apply ltb_false in E1];
    match goal with
    | |- context [Real.ltb ?a ?b] =>
        let E := fresh "E" in
        destruct (Real.ltb a b) eqn:E;
        [apply ltb_true in E | apply ltb_false in E]
    end; lra.
Qed.

(* one call of refract for a ray that comes from outside *)
Lemma refract_outside (fuel : nat) (I N : vec3) (eta_t eta_i : R) :
  0 <= cosi_of I N ->
  refract (S fuel) I N eta_t eta_i
  = Some (if flt (discriminant (eta_i / eta_t) (cosi_of I N)) (i2f 0)
          then ivec 1 0 0
          else vadd (vscale I (eta_i / eta_t))
                    (vscale N (eta_i / eta_t * cosi_of I N
                               - sqrt (discriminant (eta_i / eta_t)
                                                    (cosi_of I N))))).
Proof.
  intros Hc. cbn [refract].
  replace (flt (cosi_of I N) (i2f 0)) with false
    by (symmetry; apply ltb_false; real_ops; lra).
  reflexivity.
Qed.

(* refract resolves the side of the surface in at most one more call *)
Lemma refract_side (fuel : nat) (I N : vec3) (eta_t eta_i : R) :
  (0 <= cosi_of I N
   /\ refract (S (S fuel)) I N eta_t eta_i
      = refract (S fuel) I N eta_t eta_i)
  \/ (cosi_of I N < 0 /\ 0 <= cosi_of I (vneg N)
      /\ refract (S (S fuel)) I N eta_t eta_i
         = refract (S fuel) I (vneg N) eta_i eta_t).
Proof.
  destruct (Rlt_dec (cosi_of I N) 0) as [Hneg | Hpos].
  - right. split; [exact Hneg|]. split; [apply cosi_of_flip; exact Hneg|].
    cbn [refract].
    replace (flt (cosi_of I N) (i2f 0)) with true
      by (symmetry; apply ltb_true; real_ops; lra).
    reflexivity.
  - left. split; [lra|]. rewrite !refract_outside by lra. reflexivity.
Qed.

(** Between two media of the same refractive index, as for every material
    of the scene but glass, refract returns the incident direction itself,
    whatever the normal and from either side. *)
Theorem refract_same_index (I N : vec3) (eta : R) :
  eta <> 0 ->
  refract 2 I N eta eta = Some I
  /\ refract 2 I (vneg N) eta eta = Some I.
Proof.
  intros Heta.
  assert (Hbody : forall N', 0 <= cosi_of I N' ->
            refract 1 I N' eta eta = Some I).
  { intros N' Hc. rewrite refract_outside by exact Hc.
    replace (eta / eta) with 1 by (field; exact Heta).
    set (c := cosi_of I N') in *.
    assert (Hk : discriminant 1 c = c * c)
      by (unfold discriminant; real_ops; ring).
    rewrite Hk. real_ops.
    replace (Real.ltb (c * c) 0) with false
      by (symmetry; apply ltb_false; nra).
    rewrite sqrt_square by exact Hc.
    destruct I as [ix iy iz], N' as [nx ny nz]. vec_ops.
    f_equal. f_equal; ring. }
  assert (Hboth : forall N', refract 2 I N' eta eta = Some I).
  { intros N'.
    destruct (refract_side 0 I N' eta eta) as [[Hc ->] | (_ & Hc & ->)];
      apply Hbody; exact Hc. }
  split; apply Hboth.
Qed.

(* the vector that refract returns from outside has length 1 *)
Lemma refract_outside_unit (I N : vec3) (eta : float) :
  dot I I = 1 -> dot N N = 1 -> 0 <= cosi_of I N ->
  norm (if flt (discriminant eta (cosi_of I N)) (i2f 0)
        then ivec 1 0 0
        else vadd (vscale I eta)
                  (vscale N (eta * cosi_of I N
                             - sqrt (discriminant eta (cosi_of I N)))))
  = 1.
Proof.
  intros HI HN Hc.
  destruct (flt (discriminant eta (cosi_of I N)) (i2f 0)) eqn:Ek.
  - apply norm_axis. reflexivity.
  - apply ltb_false in Ek. real_ops.
    pose proof (@cosi_of_unclamped I N (@dot_bound I N HI HN)) as Hq.
    set (c := @cosi_of Real.arith I N) in *.
    set (k := @discriminant Real.arith eta c) in *.
    assert (Hs : sqrt k * sqrt k = k) by (apply sqrt_sqrt; exact Ek).
    assert (Hkdef : k = 1 - eta * eta * (1 - c * c))
      by (unfold k, discriminant; real_ops; ring).
    apply norm_1_dot.
    set (m := eta * c - sqrt k) in *.
    assert (Hexp : @dot Real.arith
                     (vadd (vscale I eta) (vscale N m))
                     (vadd (vscale I eta) (vscale N m))
                   = eta * eta * @dot Real.arith I I
                     + 2 * eta * m * @dot Real.arith I N
                     + m * m * @dot Real.arith N N).
    { destruct I, N. vec_ops. ring. }
    rewrite Hexp, HI, HN.
    replace (@dot Real.arith I N) with (- c) by lra.
    unfold m.
    replace (eta * eta * 1 + 2 * eta * (eta * c - sqrt k) * - c
             + (eta * c - sqrt k) * (eta * c - sqrt k) * 1)
      with (eta * eta - eta * eta * c * c + sqrt k * sqrt k) by ring.
    rewrite Hs, Hkdef. real_ops. ring.
Qed.

(** For unit vectors I and N, whatever refract returns has length 1: the
    refracted direction as well as the vector (1, 0, 0) of total
    reflection, from either side of the surface. *)
Theorem refract_unit (I N : vec3) (eta_t eta_i : R) (v : vec3) :
  norm I = 1 -> norm N = 1 ->
  refract 2 I N eta_t eta_i = Some v ->
  norm v = 1.
Proof.
  intros HI HN. apply norm_1_dot in HI, HN.
  assert (HN' : dot (vneg N) (vneg N) = 1).
  { rewrite <- HN. destruct N. vec_ops. ring. }
  assert (Hsome : forall a b : vec3, Some a = Some b -> a = b)
    by (intros a b E; congruence).
  destruct (refract_side 0 I N eta_t eta_i) as [[Hc E] | (_ & Hc & E)];
    rewrite E, refract_outside by exact Hc; intros Hv;
    apply Hsome in Hv; rewrite <- Hv.
  - exact (@refract_outside_unit I N (eta_i / eta_t) HI HN Hc).
  - exact (@refract_outside_unit I (vneg N) (eta_t / eta_i) HI HN' Hc).
Qed.

(** Snell's law.  For unit vectors, a ray from outside (I.N <= 0) and a
    discriminant k >= 0, refract returns a unit vector v whose part along
    the surface is that of I scaled by eta_i / eta_t, and which continues
    into the surface: v.N = -sqrt(k). *)
Theorem refract_snell (I N : vec3) (eta_t eta_i : R) :
  norm I = 1 -> norm N = 1 -> dot I N <= 0 ->
  0 <= discriminant (eta_i / eta_t) (- dot I N) ->
  exists v,
    refract 1 I N eta_t eta_i = Some v
    /\ vsub v (vscale N (dot v N))
       = vscale (vsub I (vscale N (dot I N))) (eta_i / eta_t)
    /\ dot v N = - sqrt (discriminant (eta_i / eta_t) (- dot I N))
    /\ norm v = 1.
Proof.
  intros HI HN Hq Hk. apply norm_1_dot in HI. apply norm_1_dot in HN.
  pose proof (@cosi_of_unclamped I N (@dot_bound I N HI HN)) as Hc.
  assert (Hpos : 0 <= cosi_of I N) by lra.
  pose proof (@refract_outside_unit I N (eta_i / eta_t) HI HN Hpos) as Hu.
  rewrite refract_outside by exact Hpos.
  rewrite Hc in *.
  assert (Ek : Real.ltb (discriminant (eta_i / eta_t) (- dot I N)) 0
               = false) by (apply ltb_false; lra).
  real_ops. rewrite Ek in *.
  eexists. split; [reflexivity|].
  set (eta := eta_i / eta_t) in *.
  set (q := @dot Real.arith I N) in *.
  set (k := @discriminant Real.arith eta (- q)) in *.
  set (m := eta * - q - sqrt k) in *.
  assert (Hvn : @dot Real.arith (vadd (vscale I eta) (vscale N m)) N
                = - sqrt k).
  { assert (E : @dot Real.arith (vadd (vscale I eta) (vscale N m)) N
                = eta * q + m * @dot Real.arith N N)
      by (unfold q; destruct I, N; vec_ops; ring).
    rewrite E, HN. unfold m. real_ops. ring. }
  split; [| split; [exact Hvn | exact Hu]].
  rewrite Hvn. unfold m, q. clear.
  destruct I as [ix iy iz], N as [nx ny nz]. vec_ops.
  f_equal; ring.
Qed.

(** ** ray_sphere_intersect *)

(* along a unit direction, the point at distance t is on the sphere exactly
   when (t - tca)^2 = radius^2 - d2 *)
Lemma on_sphere_iff (orig dir : vec3) (s : Sphere) (t : R) :
  dot dir dir = 1 ->
  let L := vsub (center s) orig in
  let tca := dot L dir in
  let d2 := dot L L - tca * tca in
  dot (vsub (vadd orig (vscale dir t)) (center s))
      (vsub (vadd orig (vscale dir t)) (center s)) = radius s * radius s
  <-> (t - tca) * (t - tca) = radius s * radius s - d2.
Proof.
  intros Hdir L tca d2.
  assert (Hexp : dot (vsub (vadd orig (vscale dir t)) (center s))
                     (vsub (vadd orig (vscale dir t)) (center s))
                 = t * t * dot dir dir - 2 * t * tca + dot L L).
  { unfold tca, L. destruct orig, dir, (center s). vec_ops. ring. }
  rewrite Hexp, Hdir. unfold d2. real_ops. split; intros H; lra.
Qed.

(* the two roots of (t - c)^2 = h^2 *)
Lemma square_roots (t c h : R) :
  (t - c) * (t - c) = h * h -> t = c - h \/ t = c + h.
Proof.
  intros H.
  assert (E : (t - (c - h)) * (t - (c + h)) = 0)
    by (replace ((t - (c - h)) * (t - (c + h)))
          with ((t - c) * (t - c) - h * h) by ring; lra).
  apply Rmult_integral in E. destruct E as [E | E]; [left | right]; lra.
Qed.

(** For a unit direction, ray_sphere_intersect decides whether the ray
    meets the sphere farther than .001 from its origin, and the distance
    it reports is that of the first such point. *)
Theorem ray_sphere_intersect_nearest (orig dir : vec3) (s : Sphere) :
  norm dir = 1 ->
  let r := ray_sphere_intersect orig dir s in
  let on_sphere (t : R) :=
    dot (vsub (vadd orig (vscale dir t)) (center s))
        (vsub (vadd orig (vscale dir t)) (center s))
    = radius s * radius s in
  (fst r = true ->
     Q2R 0.001 < snd r /\ on_sphere (snd r)
     /\ forall t, Q2R 0.001 < t -> on_sphere t -> snd r <= t)
  /\ (fst r = false -> forall t, Q2R 0.001 < t -> ~ on_sphere t).
Proof.
  intros Hdir r on_sphere. apply norm_1_dot in Hdir.
  pose proof (fun t => @on_sphere_iff orig dir s t Hdir) as Hiff.
  cbv zeta in Hiff. subst r on_sphere. cbv beta.
  unfold ray_sphere_intersect, eps. real_ops.
  set (L := @vsub Real.arith (center s) orig) in *.
  set (tca := @dot Real.arith L dir) in *.
  set (d2 := @dot Real.arith L L - tca * tca) in *.
  set (rr := radius s * radius s) in *.
  destruct (Real.ltb rr d2) eqn:Ed.
  - apply ltb_true in Ed. cbn [fst snd]. split; [discriminate|].
    intros _ t Ht Hon. apply Hiff in Hon.
    pose proof (Rle_0_sqr (t - tca)) as Hsq. unfold Rsqr in Hsq. lra.
  - apply ltb_false in Ed.
    pose proof (sqrt_pos (rr - d2)) as Hpos.
    assert (Hthc : sqrt (rr - d2) * sqrt (rr - d2) = rr - d2)
      by (apply sqrt_sqrt; lra).
    set (thc := sqrt (rr - d2)) in *.
    assert (Hroots : forall t,
              @dot Real.arith
                (vsub (vadd orig (vscale dir t)) (center s))
                (vsub (vadd orig (vscale dir t)) (center s)) = rr ->
              t = tca - thc \/ t = tca + thc).
    { intros t Hon. apply Hiff in Hon. apply square_roots. lra. }
    destruct (Real.ltb (Q2R 0.001) (tca - thc)) eqn:E0.
    + apply ltb_true in E0. cbn [fst snd]. split; [intros _|discriminate].
      split; [exact E0|]. split; [apply Hiff; lra|].
      intros t Ht Hon. destruct (Hroots t Hon); lra.
    + apply ltb_false in E0.
      destruct (Real.ltb (Q2R 0.001) (tca + thc)) eqn:E1.
      * apply ltb_true in E1. cbn [fst snd]. split; [intros _|discriminate].
        split; [exact E1|]. split; [apply Hiff; lra|].
        intros t Ht Hon. destruct (Hroots t Hon); lra.
      * apply ltb_false in E1. cbn [fst snd]. split; [discriminate|].
        intros _ t Ht Hon. destruct (Hroots t Hon); lra.
Qed.

(** ** scene_intersect *)

(* one round of the loop never raises the recorded distance, and lowers it
   to the distance of an intersected sphere at least *)
Lemma sphere_step_dist (orig dir : vec3) (st : nearest) (s : Sphere) :
  nearest_dist (sphere_step orig dir st s) <= nearest_dist st
  /\ (fst (ray_sphere_intersect orig dir s) = true ->
      nearest_dist (sphere_step orig dir st s)
      <= snd (ray_sphere_intersect orig dir s)).
Proof.
  unfold sphere_step.
  destruct (ray_sphere_intersect orig dir s) as [hit d]. cbn [fst snd].
  real_ops. destruct hit; cbn [negb orb].
  - destruct (Real.ltb (nearest_dist st) d) eqn:E;
      [apply ltb_true in E | apply ltb_false in E];
      cbn [nearest_dist]; split; try intros _; lra.
  - split; [lra | discriminate].
Qed.

Lemma fold_sphere_step_dist (orig dir : vec3) (sph : list Sphere) :
  forall st,
    nearest_dist (fold_left (sphere_step orig dir) sph st)
    <= nearest_dist st
    /\ (forall s, In s sph ->
          fst (ray_sphere_intersect orig dir s) = true ->
          nearest_dist (fold_left (sphere_step orig dir) sph st)
          <= snd (ray_sphere_intersect orig dir s)).
Proof.
  induction sph as [|s0 sph IH]; intros st; cbn [fold_left].
  - split; [lra | intros s []].
  - destruct (IH (sphere_step orig dir st s0)) as [Hle Hall].
    destruct (sphere_step_dist orig dir st s0) as [Hle0 Hhit0].
    split; [lra|].
    intros s [<- | Hin] Hs; [specialize (Hhit0 Hs); lra|].
    apply Hall; assumption.
Qed.

(** The distance that scene_intersect records is the least of the
    candidates: it is the sentinel 1e10, the distance of the accepted
    checkerboard or the distance reported for a sphere, and it exceeds
    none of them. *)
Theorem scene_intersect_nearest (sph : list Sphere) (orig dir : vec3) :
  let d := nearest_dist (scene_state sph orig dir) in
  (d = Q2R 1e10
   \/ (plane_accept orig dir nearest_init = true
       /\ d = plane_dist orig dir)
   \/ exists s, In s sph
                /\ fst (ray_sphere_intersect orig dir s) = true
                /\ d = snd (ray_sphere_intersect orig dir s))
  /\ d <= Q2R 1e10
  /\ (plane_accept orig dir nearest_init = true -> d <= plane_dist orig dir)
  /\ (forall s, In s sph ->
        fst (ray_sphere_intersect orig dir s) = true ->
        d <= snd (ray_sphere_intersect orig dir s)).
Proof.
  intros d. subst d. split.
  - destruct (scene_state_origin sph orig dir)
      as [E | [[Hacc E] | (s & Hin & Hs & E)]]; rewrite E.
    + left. reflexivity.
    + right; left. split; [exact Hacc | reflexivity].
    + right; right. exists s. repeat split; assumption.
  - unfold scene_state.
    destruct (fold_sphere_step_dist orig dir sph
                (plane_step orig dir nearest_init)) as [Hle Hall].
    assert (Hplane : nearest_dist (plane_step orig dir nearest_init)
                     <= Q2R 1e10
                     /\ (plane_accept orig dir nearest_init = true ->
                         nearest_dist (plane_step orig dir nearest_init)
                         <= plane_dist orig dir)).
    { unfold plane_step.
      destruct (plane_accept orig dir nearest_init) eqn:Hacc.
      - cbn [nearest_dist]. split; [|intros _; lra].
        unfold plane_accept in Hacc. apply andb_prop in Hacc.
        destruct Hacc as [_ Hacc]. cbv zeta in Hacc.
        do 3 (apply andb_prop in Hacc; destruct Hacc as [Hacc _]).
        apply andb_prop in Hacc. destruct Hacc as [_ Hacc].
        apply ltb_true in Hacc. cbn [nearest_dist nearest_init] in Hacc.
        real_ops. lra.
      - cbn [nearest_dist nearest_init]. real_ops.
        split; [lra | discriminate]. }
    destruct Hplane as [Hp1 Hp2].
    split; [lra|]. split; [intros Hacc; specialize (Hp2 Hacc); lra|].
    exact Hall.
Qed.

(** When the plane test accepts, the recorded point lies on the plane
    y = -4 and inside the board, at the recorded distance along the ray,
    which is above .001 and below the distance held before. *)
Theorem plane_step_on_board (orig dir : vec3) (st : nearest) :
  plane_accept orig dir st = true ->
  let r := plane_step orig dir st in
  y (pt r) = -4
  /\ Rabs (x (pt r)) < 10 /\ -30 < z (pt r) < -10
  /\ pt r = vadd orig (vscale dir (nearest_dist r))
  /\ nrm r = ivec 0 1 0
  /\ Q2R 0.001 < nearest_dist r < nearest_dist st.
Proof.
  intros Hacc r. subst r. unfold plane_step. rewrite Hacc.
  cbn [pt nrm nearest_dist].
  unfold plane_accept in Hacc. cbv zeta in Hacc.
  apply andb_prop in Hacc. destruct Hacc as [Hy Hacc].
  apply andb_prop in Hacc. destruct Hacc as [Hacc Hz2].
  apply andb_prop in Hacc. destruct Hacc as [Hacc Hz1].
  apply andb_prop in Hacc. destruct Hacc as [Hacc Hx].
  apply andb_prop in Hacc. destruct Hacc as [Hd1 Hd2].
  apply ltb_true in Hy, Hz2, Hz1, Hx, Hd1, Hd2.
  unfold eps in *. real_ops.
  assert (Heps : 0 < Q2R 0.001) by (unfold Q2R; simpl; lra).
  assert (Hnz : y dir <> 0).
  { intros E. rewrite E, Rabs_R0 in Hy. lra. }
  repeat split; try assumption; try reflexivity.
  unfold plane_point, plane_dist. destruct orig as [ox oy oz],
    dir as [dx dy dz]. vec_ops. field. exact Hnz.
Qed.

(** ** render: the direction of the ray through a pixel *)

Lemma two_lit : Q2R 2 = 2.
Proof. unfold Q2R. simpl. lra. Qed.

(* half of the field of view lies between 0 and a right angle *)
Lemma tan_half_fov : 0 < tan (Q2R 1.05 / 2).
Proof.
  pose proof PI2_1 as Hpi.
  apply tan_gt_0; unfold Q2R; simpl; lra.
Qed.

(* a vector with a nonzero z has a nonzero length *)
Lemma norm_pos (a b c : R) : c <> 0 -> 0 < norm (mkvec3 a b c).
Proof.
  intros Hc. vec_ops. apply sqrt_lt_R0.
  pose proof (Rle_0_sqr a) as Ha. pose proof (Rle_0_sqr b) as Hb.
  pose proof (Rlt_0_sqr c Hc) as Hc2. unfold Rsqr in *. lra.
Qed.

(* mirroring x before or after normalized is the same *)
Lemma normalized_mirror (a b c : R) :
  normalized (mkvec3 (- a) b c)
  = mkvec3 (- x (normalized (mkvec3 a b c)))
           (y (normalized (mkvec3 a b c)))
           (z (normalized (mkvec3 a b c))).
Proof.
  vec_ops. replace (- a * - a) with (a * a) by ring. f_equal. ring.
Qed.

(** For a frame of positive height every pixel gets a direction of length
    1 that points away from the viewer (z < 0), and the pixel mirrored in
    the vertical axis of the frame gets the mirrored direction. *)
Theorem pixel_dir_unit (w h col row : Z) :
  (0 < h)%Z ->
  norm (pixel_dir w h col row) = 1
  /\ z (pixel_dir w h col row) < 0
  /\ pixel_dir w h (w - 1 - col) row
     = mkvec3 (- x (pixel_dir w h col row))
              (y (pixel_dir w h col row))
              (z (pixel_dir w h col row)).
Proof.
  intros Hh. unfold pixel_dir, fov, qlit. real_ops. more_ops.
  rewrite two_lit, half_lit.
  set (dx := IZR col + / 2 - IZR w / 2).
  set (dy := - (IZR row + / 2) + IZR h / 2).
  set (dz := IZR (- h) / (2 * tan (Q2R 1.05 / 2))).
  assert (Hdz : dz < 0).
  { unfold dz. rewrite opp_IZR. pose proof tan_half_fov as Ht.
    apply IZR_lt in Hh.
    assert (Hq : 0 < IZR h / (2 * tan (Q2R 1.05 / 2))).
    { unfold Rdiv. apply Rmult_lt_0_compat; [exact Hh|].
      apply Rinv_0_lt_compat. lra. }
    unfold Rdiv in *. rewrite <- Ropp_mult_distr_l. lra. }
  assert (Hn : 0 < @norm Real.arith (mkvec3 dx dy dz))
    by (apply norm_pos; lra).
  split; [apply norm_normalized; lra|]. split.
  - unfold normalized, vscale. cbn [x y z]. real_ops.
    assert (Hi : 0 < 1 / @norm Real.arith (mkvec3 dx dy dz)).
    { unfold Rdiv. rewrite Rmult_1_l. apply Rinv_0_lt_compat. exact Hn. }
    assert (Hm : 0 < - dz * (1 / @norm Real.arith (mkvec3 dx dy dz)))
      by (apply Rmult_lt_0_compat; lra).
    rewrite <- Ropp_mult_distr_l in Hm. lra.
  - replace (IZR (w - 1 - col) + / 2 - IZR w / 2) with (- dx)
      by (unfold dx; rewrite !minus_IZR; field).
    apply normalized_mirror.
Qed.

(** ** print_colored_square: which color pairs it selects *)

(* (int)(v * 5) on a component that is not negative *)
Lemma level_floor (v : R) : 0 <= v -> level v = Real.floor (v * 5).
Proof.
  intros Hv. unfold level. real_ops. apply trunc_nonneg. lra.
Qed.

Lemma level_range (v : R) : 0 <= v <= 1 -> (0 <= level v <= 5)%Z.
Proof.
  intros Hv. rewrite level_floor by lra.
  pose proof (floor_bounds (v * 5)) as [Hlo Hhi].
  split.
  - assert (H : (-1 < Real.floor (v * 5))%Z); [|lia].
    apply lt_IZR. simpl. lra.
  - apply le_IZR. lra.
Qed.



(** A color with every component between 0 and 1 is printed with one of
    the color pairs that main initialises. *)
Theorem color_pair_initialised (r g b : R) :
  0 <= r <= 1 -> 0 <= g <= 1 -> 0 <= b <= 1 ->
  In (color_index r g b) init_pairs.
Proof.
  intros Hr Hg Hb. apply init_pairs_spec. unfold color_index.
  pose proof (level_range Hr). pose proof (level_range Hg).
  pose proof (level_range Hb). lia.
Qed.


(** ** rotate *)

Lemma radians_real (a : R) : radians a = a * PI / 180.
Proof.
  unfold radians. real_ops. more_ops.
  replace (Q2R 180) with 180 by (unfold Q2R; simpl; lra). reflexivity.
Qed.

(* the three plane rotations keep the sum of the squares *)
Lemma rotate_squares (px py pz cX sX cY sY cZ sZ : R) :
  sX * sX + cX * cX = 1 -> sY * sY + cY * cY = 1 ->
  sZ * sZ + cZ * cZ = 1 ->
  let y1 := py * cX - pz * sX in
  let z1 := py * sX + pz * cX in
  let x2 := px * cY + z1 * sY in
  let z2 := - px * sY + z1 * cY in
  let x3 := x2 * cZ - y1 * sZ in
  let y3 := x2 * sZ + y1 * cZ in
  x3 * x3 + y3 * y3 + z2 * z2 = px * px + py * py + pz * pz.
Proof.
  intros HX HY HZ y1 z1 x2 z2 x3 y3.
  replace (x3 * x3 + y3 * y3 + z2 * z2)
    with ((x2 * x2 + y1 * y1) * (sZ * sZ + cZ * cZ) + z2 * z2)
    by (unfold x3, y3; ring).
  rewrite HZ.
  replace ((x2 * x2 + y1 * y1) * 1 + z2 * z2)
    with ((px * px + z1 * z1) * (sY * sY + cY * cY) + y1 * y1)
    by (unfold x2, z2; ring).
  rewrite HY.
  replace ((px * px + z1 * z1) * 1 + y1 * y1)
    with (px * px + (py * py + pz * pz) * (sX * sX + cX * cX))
    by (unfold y1, z1; ring).
  rewrite HX. ring.
Qed.

Lemma sin_cos_squares (a : R) : sin a * sin a + cos a * cos a = 1.
Proof. pose proof (sin2_cos2 a) as H. unfold Rsqr in H. exact H. Qed.

(** rotate is a rotation about the pivot: whatever the three angles, the
    result is as far from the pivot as the point was, and the pivot itself
    stays where it is. *)
Theorem rotate_isometry (p c : vec3) (aX aY aZ : R) :
  norm (vsub (rotate p c aX aY aZ) c) = norm (vsub p c)
  /\ rotate c c aX aY aZ = c.
Proof.
  split.
  - unfold norm. f_equal.
    pose proof (@rotate_squares
                  (x p - x c) (y p - y c) (z p - z c)
                  (cos (radians aX)) (sin (radians aX))
                  (cos (radians aY)) (sin (radians aY))
                  (cos (radians aZ)) (sin (radians aZ))
                  (sin_cos_squares _) (sin_cos_squares _)
                  (sin_cos_squares _)) as H.
    cbv zeta in H. unfold rotate. destruct p as [px py pz], c as [cx cy cz].
    vec_ops. more_ops. rewrite <- H. ring.
  - unfold rotate. destruct c as [cx cy cz]. vec_ops. more_ops.
    f_equal; ring.
Qed.

(* rotate with the angles of animate: about the vertical axis only *)
Lemma rotate_yaw_eq (p c : vec3) (a : R) :
  rotate p c (i2f 0) a (qlit 0)
  = mkvec3 ((x p - x c) * cos (a * PI / 180)
            + (z p - z c) * sin (a * PI / 180) + x c)
           (y p)
           (- (x p - x c) * sin (a * PI / 180)
            + (z p - z c) * cos (a * PI / 180) + z c).
Proof.
  unfold rotate. rewrite !radians_real. unfold qlit. real_ops. more_ops.
  replace (Q2R 0 * PI / 180) with 0 by (unfold Q2R; simpl; lra).
  replace (0 * PI / 180) with 0 by lra.
  rewrite cos_0, sin_0. destruct p as [px py pz], c as [cx cy cz].
  cbn [x y z]. f_equal; ring.
Qed.

(** With the first and the third angle 0, as animate calls it, rotate
    turns the point about the vertical axis through the pivot: the height
    is kept, the angle 0 moves nothing, and two turns in a row are the turn
    by the sum of the angles. *)
Theorem rotate_yaw (p c : vec3) (a b : R) :
  y (rotate p c (i2f 0) a (qlit 0)) = y p
  /\ rotate p c (i2f 0) 0 (qlit 0) = p
  /\ rotate (rotate p c (i2f 0) a (qlit 0)) c (i2f 0) b (qlit 0)
     = rotate p c (i2f 0) (a + b) (qlit 0).
Proof.
  rewrite !rotate_yaw_eq. cbn [x y z]. split; [reflexivity|]. split.
  - replace (0 * PI / 180) with 0 by lra. rewrite cos_0, sin_0.
    destruct p as [px py pz]. cbn [x y z]. real_ops. f_equal; ring.
  - replace ((a + b) * PI / 180) with (a * PI / 180 + b * PI / 180)
      by field.
    rewrite cos_plus, sin_plus. real_ops. f_equal; ring.
Qed.

(** ** animate *)

(* the scene after n calls of animate *)
Lemma animate_iter (n : nat) :
  Nat.iter n animate spheres
  = [ mkSphere (ivec (-3) 0 (-16)) (i2f 2) ivory;
      mkSphere (mkvec3 (qlit (-1)) (qlit (-1.5)) (i2f (-12))) (i2f 2) glass;
      mkSphere (rotate (mkvec3 (qlit 1.5) (qlit (-0.5)) (i2f (-18)))
                       (qvec 1.5 (-2.5) (-15))
                       (i2f 0) (INR n * qlit 1.6) (qlit 0))
               (i2f 3) red_rubber;
      mkSphere (rotate (ivec 7 5 (-18)) (qvec 1.5 (-2.5) (-20))
                       (i2f 0) (INR n * qlit (-0.8)) (qlit 0))
               (i2f 4) mirror ].
Proof.
  induction n as [|n IH].
  - change (Nat.iter 0 animate spheres) with spheres.
    cbn [INR]. unfold spheres.
    rewrite !rotate_yaw_eq. rewrite !Rmult_0_l.
    replace (0 / 180) with 0 by lra. rewrite cos_0, sin_0.
    unfold ivec, qvec, qlit. cbn [x y z]. real_ops.
    repeat (f_equal; try ring).
  - change (Nat.iter (S n) animate spheres)
      with (animate (Nat.iter n animate spheres)).
    rewrite IH. unfold animate, turn.
    cbn [nth_error set_nth center radius material].
    rewrite !rotate_yaw_eq. cbn [x y z]. rewrite S_INR.
    set (red := @qlit Real.arith 1.6).
    set (mir := @qlit Real.arith (-0.8)).
    replace ((INR n + 1) * red * PI / 180)
      with (INR n * red * PI / 180 + red * PI / 180)
      by (real_ops; field).
    replace ((INR n + 1) * mir * PI / 180)
      with (INR n * mir * PI / 180 + mir * PI / 180)
      by (real_ops; field).
    rewrite !cos_plus, !sin_plus. real_ops.
    repeat (f_equal; try ring).
Qed.

(** The scene of frame n: the ivory and the glass sphere are where they
    started, the red sphere has turned by 1.6 (n + 1) degrees and the
    mirror sphere by -0.8 (n + 1) degrees about the vertical axes through
    their pivots, at their initial heights -0.5 and 5. *)
Theorem frame_scene_turned (n : nat) :
  let red := rotate (mkvec3 (qlit 1.5) (qlit (-0.5)) (i2f (-18)))
                    (qvec 1.5 (-2.5) (-15))
                    (i2f 0) (INR (S n) * qlit 1.6) (qlit 0) in
  let mir := rotate (ivec 7 5 (-18)) (qvec 1.5 (-2.5) (-20))
                    (i2f 0) (INR (S n) * qlit (-0.8)) (qlit 0) in
  frame_scene n
  = [ mkSphere (ivec (-3) 0 (-16)) (i2f 2) ivory;
      mkSphere (mkvec3 (qlit (-1)) (qlit (-1.5)) (i2f (-12))) (i2f 2) glass;
      mkSphere red (i2f 3) red_rubber;
      mkSphere mir (i2f 4) mirror ]
  /\ y red = qlit (-0.5) /\ y mir = i2f 5.
Proof.
  intros red mir. unfold frame_scene. rewrite animate_iter.
  split; [reflexivity|]. unfold red, mir. rewrite !rotate_yaw_eq.
  split; reflexivity.
Qed.

(* a full turn more or less does not change where rotate puts a point *)
Lemma rotate_yaw_full (p c : vec3) (a : R) (k : nat) :
  rotate p c (i2f 0) (a + 360 * INR k) (qlit 0)
  = rotate p c (i2f 0) a (qlit 0)
  /\ rotate p c (i2f 0) (a - 360 * INR k) (qlit 0)
     = rotate p c (i2f 0) a (qlit 0).
Proof.
  rewrite !rotate_yaw_eq.
  replace ((a + 360 * INR k) * PI / 180)
    with (a * PI / 180 + 2 * INR k * PI) by field.
  rewrite cos_period, sin_period. split; [reflexivity|].
  rewrite <- (cos_period ((a - 360 * INR k) * PI / 180) k).
  rewrite <- (sin_period ((a - 360 * INR k) * PI / 180) k).
  replace ((a - 360 * INR k) * PI / 180 + 2 * INR k * PI)
    with (a * PI / 180) by field.
  reflexivity.
Qed.

(** The animation repeats: 450 frames later the scene is the same again
    (the mirror sphere has made one turn backwards, the red sphere two
    turns forwards). *)
Theorem frame_scene_period (n : nat) :
  frame_scene (n + 450) = frame_scene n.
Proof.
  unfold frame_scene.
  change (S (n + 450)) with (S n + 450)%nat.
  rewrite !animate_iter. rewrite plus_INR.
  assert (E450 : INR 450 = 450) by (rewrite INR_IZR_INZ; reflexivity).
  rewrite E450.
  replace ((INR (S n) + 450) * @qlit Real.arith 1.6)
    with (INR (S n) * @qlit Real.arith 1.6 + 360 * INR 2)
    by (unfold qlit; real_ops; unfold Q2R; simpl; field).
  replace ((INR (S n) + 450) * @qlit Real.arith (-0.8))
    with (INR (S n) * @qlit Real.arith (-0.8) - 360 * INR 1)
    by (unfold qlit; real_ops; unfold Q2R; simpl; field).
  rewrite (proj1 (rotate_yaw_full _ _ _ 2)).
  rewrite (proj2 (rotate_yaw_full _ _ _ 1)).
  reflexivity.
Qed.

(** ** cast_ray: the light that reaches a point *)



Lemma dot_vneg_vneg (u : vec3) : dot (vneg u) (vneg u) = dot u u.
Proof. destruct u. vec_ops. ring. Qed.






(** ** cast_ray: no negative color *)

Import RealMore.









Lemma some_eq {U : Type} (a b : U) : Some a = Some b -> a = b.
Proof. intros E. congruence. Qed.



(** ** Secondary rays *)

(* a ray that comes from outside has a cosine between 0 and 1 *)
Lemma cosi_of_outside (I N : vec3) :
  dot I N <= 0 -> 0 <= cosi_of I N <= 1.
Proof.
  unfold cosi_of, fmax, fmin. generalize (dot I N). intros q Hq. real_ops.
  destruct (Real.ltb q (IZR 1)) eqn:E1;
    [apply ltb_true in E1 | apply ltb_false in E1];
    match goal with
    | |- context [Real.ltb ?a ?b] =>
        let E := fresh "E" in
        destruct (Real.ltb a b) eqn:E;
        [apply ltb_true in E | apply ltb_false in E]
    end; lra.
Qed.

(** Entering a medium that is at least as dense (0 < eta_i <= eta_t, as
    from the air into any material of the scene) there is no total
    reflection: for a ray from outside the discriminant k is not negative
    and refract returns I * eta + N * (eta * cosi - sqrt(k)) in one
    call. *)
Theorem refract_into_denser (I N : vec3) (eta_t eta_i : R) :
  0 < eta_i <= eta_t -> dot I N <= 0 ->
  let eta := eta_i / eta_t in
  let k := discriminant eta (cosi_of I N) in
  0 <= k
  /\ refract 1 I N eta_t eta_i
     = Some (vadd (vscale I eta)
                  (vscale N (eta * cosi_of I N - sqrt k))).
Proof.
  intros Heta Hq eta k.
  destruct (@cosi_of_outside I N Hq) as [Hc0 Hc1].
  assert (He : 0 < eta <= 1).
  { assert (Hm : eta * eta_t = eta_i) by (unfold eta; field; lra).
    split.
    - unfold eta, Rdiv. apply Rmult_lt_0_compat; [lra|].
      apply Rinv_0_lt_compat. lra.
    - apply Rmult_le_reg_r with eta_t; lra. }
  assert (Hk : 0 <= k).
  { unfold k, discriminant. real_ops.
    set (c := @cosi_of Real.arith I N) in *.
    assert (Hee : eta * eta <= 1).
    { replace 1 with (1 * 1) by ring.
      apply Rmult_le_compat; lra. }
    assert (Hcc : 0 <= c * c <= 1).
    { split; [apply Rmult_le_pos; lra|].
      replace 1 with (1 * 1) by ring. apply Rmult_le_compat; lra. }
    assert (Hp : eta * eta * (1 - c * c) <= 1 * (1 - c * c))
      by (apply Rmult_le_compat_r; lra).
    lra. }
  split; [exact Hk|].
  rewrite refract_outside by exact Hc0. fold eta. fold k.
  real_ops. rewrite (proj2 (ltb_false k 0)) by lra.
  reflexivity.
Qed.

(* the normal of a reported hit has length 1 *)
Lemma hit_normal_unit (sph : list Sphere) (orig dir : vec3) :
  dot dir dir = 1 ->
  (forall s, In s sph -> 0 < radius s) ->
  hit_of (scene_intersect sph orig dir) = true ->
  dot (normal_of (scene_intersect sph orig dir))
      (normal_of (scene_intersect sph orig dir)) = 1.
Proof.
  intros Hdir Hrad. unfold scene_intersect, hit_of, normal_of.
  destruct (scene_state_cases sph orig dir)
    as [E | [E | (s & Hin & Hs & E)]]; rewrite E; clear E.
  - cbn [nearest_dist nearest_init]. rewrite sentinel_not_hit.
    discriminate.
  - intros _. cbn [nrm plane_won]. vec_ops. ring.
  - intros _. cbn [nrm sphere_won]. apply norm_1_dot.
    pose proof (@sphere_hit_on_sphere orig dir s Hdir Hs) as Hon.
    cbv zeta in Hon. apply norm_normalized.
    unfold norm.
    match type of Hon with
    | dot ?u ?u = _ => fold (dot u u)
    end.
    rewrite Hon. real_ops. rewrite sqrt_square by (left; apply Hrad, Hin).
    apply Rgt_not_eq. apply Hrad, Hin.
Qed.

(* normalized leaves a vector of length 1 as it is *)
Lemma normalized_of_unit (u : vec3) : dot u u = 1 -> normalized u = u.
Proof.
  intros Hu. unfold normalized.
  rewrite (proj2 (norm_1_dot u) Hu).
  destruct u as [ux uy uz]. vec_ops. f_equal; field.
Qed.

(** The two secondary rays of cast_ray.  For a primary direction of
    length 1 and spheres of positive radius, the reflected direction and
    whatever refract returns have length 1 already: the two calls of
    normalized() in cast_ray change nothing, and the recursive calls are
    again made with directions of length 1. *)
Theorem secondary_rays_unit (sph : list Sphere) (orig dir : vec3) :
  norm dir = 1 ->
  (forall s, In s sph -> 0 < radius s) ->
  hit_of (scene_intersect sph orig dir) = true ->
  let N := normal_of (scene_intersect sph orig dir) in
  let n := refractive_index (material_of (scene_intersect sph orig dir)) in
  norm (normalized (reflect dir N)) = 1
  /\ normalized (reflect dir N) = reflect dir N
  /\ forall v, refract 2 dir N n (i2f 1) = Some v ->
       norm (normalized v) = 1 /\ normalized v = v.
Proof.
  intros Hdir Hrad Hhit N n. apply norm_1_dot in Hdir.
  pose proof (@hit_normal_unit sph orig dir Hdir Hrad Hhit) as HN.
  fold N in HN.
  assert (Hr : dot (reflect dir N) (reflect dir N) = 1)
    by (rewrite reflect_dot by exact HN; exact Hdir).
  rewrite (normalized_of_unit Hr).
  split; [apply norm_1_dot; exact Hr|]. split; [reflexivity|].
  intros v Hv.
  assert (Hu : dot v v = 1).
  { assert (HN' : dot (vneg N) (vneg N) = 1)
      by (rewrite dot_vneg_vneg; exact HN).
    apply norm_1_dot. revert Hv.
    destruct (refract_side 0 dir N n (@i2f Real.arith 1))
      as [[Hc E] | (_ & Hc & E)];
      rewrite E, refract_outside by exact Hc; intros Hv;
      apply some_eq in Hv; rewrite <- Hv.
    - exact (@refract_outside_unit dir N (i2f 1 / n) Hdir HN Hc).
    - exact (@refract_outside_unit dir (vneg N) (n / i2f 1) Hdir HN' Hc). }
  rewrite (normalized_of_unit Hu).
  split; [apply norm_1_dot; exact Hu | reflexivity].
Qed.

(** A ray that starts on the surface of a sphere, in a direction of
    length 1.  The intersection at distance 0 is the starting point itself
    and is never reported.  With tca = (center - orig) * dir, the ray
    leaves the sphere when tca <= 0 and nothing is reported; it crosses the
    sphere when tca > 0, and the far side at distance 2 * tca is reported,
    provided this chord is longer than .001. *)
Theorem ray_from_surface (orig dir : vec3) (s : Sphere) :
  norm dir = 1 ->
  dot (vsub orig (center s)) (vsub orig (center s))
  = radius s * radius s ->
  let tca := dot (vsub (center s) orig) dir in
  ray_sphere_intersect orig dir s
  = if Real.ltb (Q2R 0.001) (2 * tca) then (true, 2 * tca)
    else (false, i2f 0).
Proof.
  intros Hdir Hon tca. apply norm_1_dot in Hdir.
  unfold ray_sphere_intersect, eps.
  set (L := @vsub Real.arith (center s) orig) in *.
  assert (HL : @dot Real.arith L L = radius s * radius s).
  { rewrite <- Hon. unfold L. destruct orig, (center s). vec_ops. ring. }
  fold tca. rewrite HL. real_ops.
  set (rr := radius s * radius s) in *.
  replace (rr - (rr - tca * tca)) with (tca * tca) by ring.
  assert (Hsq : 0 <= tca * tca)
    by (pose proof (Rle_0_sqr tca) as H; unfold Rsqr in H; exact H).
  rewrite (proj2 (ltb_false rr (rr - tca * tca))) by lra.
  assert (Heps : 0 < Q2R 0.001) by (unfold Q2R; simpl; lra).
  destruct (Rle_dec 0 tca) as [Hpos | Hneg].
  - rewrite sqrt_square by exact Hpos.
    rewrite (proj2 (ltb_false (Q2R 0.001) (tca - tca))) by lra.
    replace (tca + tca) with (2 * tca) by ring.
    destruct (Real.ltb (Q2R 0.001) (2 * tca)); reflexivity.
  - replace (tca * tca) with (- tca * - tca) by ring.
    rewrite sqrt_square by lra.
    rewrite (proj2 (ltb_false (Q2R 0.001) (tca - - tca))) by lra.
    rewrite (proj2 (ltb_false (Q2R 0.001) (tca + - tca))) by lra.
    rewrite (proj2 (ltb_false (Q2R 0.001) (2 * tca))) by lra.
    reflexivity.
Qed.

(** ** render returns *)



(** ** The statements at concrete vectors, points and rays *)

Lemma normalized_unit_witness :
  norm (normalized (ivec 0 0 (-2))) = 1
  /\ vscale (normalized (ivec 0 0 (-2))) (norm (ivec 0 0 (-2)))
     = ivec 0 0 (-2).
Proof.
  apply normalized_unit. intros E.
  pose proof (@norm_pos 0 0 (-2) ltac:(lra)) as H.
  unfold ivec in E. real_ops. lra.
Defined.

Lemma reflect_mirror_witness :
  dot (reflect (ivec 1 (-1) 0) upward) upward = - dot (ivec 1 (-1) 0) upward
  /\ norm (reflect (ivec 1 (-1) 0) upward) = norm (ivec 1 (-1) 0).
Proof.
  assert (HN : norm upward = 1) by (apply norm_axis; reflexivity).
  destruct (@reflect_mirror (ivec 1 (-1) 0) upward HN) as (_ & H2 & H3).
  split; [exact H2 | exact H3].
Defined.

Lemma refract_same_index_witness :
  refract 2 forward upward (qlit 1) (qlit 1) = Some forward.
Proof.
  apply (@refract_same_index forward upward (@qlit Real.arith 1)).
  unfold qlit. real_ops. unfold Q2R. simpl. lra.
Defined.

(* from the camera straight into a glass surface that faces it *)
Lemma refract_unit_witness :
  let N := ivec 0 0 1 in
  let eta := (i2f 1 / qlit 1.5)%fl in
  let k := discriminant eta (cosi_of forward N) in
  norm (if (k <? i2f 0)%fl then ivec 1 0 0
        else vadd (vscale forward eta)
                  (vscale N (eta * cosi_of forward N - fsqrt k)%fl))
  = 1.
Proof.
  intros N eta k.
  assert (HI : norm forward = 1) by (apply norm_axis; reflexivity).
  assert (HN : norm N = 1) by (apply norm_axis; reflexivity).
  assert (Hc : 0 <= cosi_of forward N).
  { rewrite cosi_of_unclamped;
      unfold forward, N; vec_ops; [lra | split; lra]. }
  assert (Hr : refract 2 forward N (@qlit Real.arith 1.5) (i2f 1)
               = Some (if (k <? i2f 0)%fl then ivec 1 0 0
                       else vadd (vscale forward eta)
                              (vscale N (eta * cosi_of forward N
                                         - fsqrt k)%fl))).
  { destruct (refract_side 0 forward N (@qlit Real.arith 1.5)
                (@i2f Real.arith 1)) as [[_ E] | [Hneg _]]; [|lra].
    rewrite E. apply refract_outside. exact Hc. }
  exact (@refract_unit forward N (@qlit Real.arith 1.5)
           (@i2f Real.arith 1) _ HI HN Hr).
Defined.

Lemma refract_snell_witness :
  exists v,
    refract 1 forward (ivec 0 0 1) (qlit 1.5) (i2f 1) = Some v
    /\ dot v (ivec 0 0 1)
       = - sqrt (discriminant (i2f 1 / qlit 1.5)
                              (- dot forward (ivec 0 0 1)))
    /\ norm v = 1.
Proof.
  assert (HI : norm forward = 1) by (apply norm_axis; reflexivity).
  assert (HN : norm (ivec 0 0 1) = 1) by (apply norm_axis; reflexivity).
  assert (Hq : dot forward (ivec 0 0 1) <= 0)
    by (unfold forward; vec_ops; lra).
  assert (Hk : 0 <= discriminant (i2f 1 / qlit 1.5)
                                 (- dot forward (ivec 0 0 1))).
  { unfold discriminant, forward. vec_ops. lra. }
  destruct (@refract_snell forward (ivec 0 0 1) (@qlit Real.arith 1.5)
              (@i2f Real.arith 1) HI HN Hq Hk) as (v & H1 & _ & H3 & H4).
  exists v. split; [exact H1|]. split; [exact H3 | exact H4].
Defined.

Lemma ray_sphere_intersect_nearest_witness :
  Q2R 0.001 < 2
  /\ forall t, Q2R 0.001 < t ->
       dot (vsub (vadd camera (vscale forward t)) (center ivory_ball))
           (vsub (vadd camera (vscale forward t)) (center ivory_ball))
       = radius ivory_ball * radius ivory_ball ->
       2 <= t.
Proof.
  assert (Hdir : norm forward = 1) by (apply norm_axis; reflexivity).
  pose proof (@ray_sphere_intersect_nearest camera forward ivory_ball Hdir)
    as H.
  cbv zeta in H. destruct H as [H _].
  rewrite one_sphere_distance in H. cbn [fst snd] in H. real_ops.
  destruct (H eq_refl) as (H1 & _ & H3).
  split; [exact H1 | exact H3].
Defined.

(* the ray straight down from above_board passes the plane test *)
Lemma plane_accept_down :
  plane_accept above_board downward nearest_init = true.
Proof.
  unfold plane_accept, plane_point, plane_dist, above_board, downward, eps.
  cbn [nearest_dist nearest_init]. vec_ops.
  replace (- (0 + 4) / -1) with 4 by lra.
  replace (0 + 0 * 4) with 0 by lra.
  replace (-15 + 0 * 4) with (-15) by lra.
  replace (Rabs (-1)) with 1
    by (unfold Rabs; destruct (Rcase_abs (-1)); lra).
  rewrite Rabs_R0.
  rewrite (proj2 (ltb_true (Q2R 0.001) 1)) by (unfold Q2R; simpl; lra).
  rewrite (proj2 (ltb_true (Q2R 0.001) 4)) by (unfold Q2R; simpl; lra).
  rewrite (proj2 (ltb_true 4 (Q2R 1e10))) by (unfold Q2R; simpl; lra).
  rewrite (proj2 (ltb_true 0 10)) by lra.
  rewrite (proj2 (ltb_true (-15) (-10))) by lra.
  rewrite (proj2 (ltb_true (-30) (-15))) by lra.
  reflexivity.
Qed.

Lemma plane_step_on_board_witness :
  let r := plane_step above_board downward nearest_init in
  y (pt r) = -4 /\ Rabs (x (pt r)) < 10 /\ -30 < z (pt r) < -10.
Proof.
  intros r.
  pose proof (@plane_step_on_board above_board downward nearest_init
                plane_accept_down) as H.
  cbv zeta in H. destruct H as (H1 & H2 & H3 & _).
  split; [exact H1|]. split; [exact H2 | exact H3].
Defined.

Lemma pixel_dir_unit_witness :
  norm (pixel_dir width height 0 0) = 1
  /\ z (pixel_dir width height 0 0) < 0.
Proof.
  assert (Hh : (0 < height)%Z) by reflexivity.
  destruct (@pixel_dir_unit width height 0 0 Hh) as (H1 & H2 & _).
  split; [exact H1 | exact H2].
Defined.

Lemma color_pair_initialised_witness :
  In (color_index (x background) (y background) (z background)) init_pairs.
Proof.
  apply color_pair_initialised; unfold background, qvec; cbn [x y z];
    real_ops; unfold Q2R; simpl; lra.
Defined.








Lemma refract_into_denser_witness :
  let N := ivec 0 0 1 in
  let eta := (i2f 1 / qlit 1.5)%fl in
  let k := discriminant eta (cosi_of forward N) in
  0 <= k
  /\ refract 1 forward N (qlit 1.5) (i2f 1)
     = Some (vadd (vscale forward eta)
                  (vscale N (eta * cosi_of forward N - fsqrt k)%fl)).
Proof.
  intros N eta k.
  assert (Heta : 0 < @i2f Real.arith 1 <= @qlit Real.arith 1.5)
    by (unfold qlit; real_ops; unfold Q2R; simpl; lra).
  assert (Hq : dot forward N <= 0)
    by (unfold forward, N; vec_ops; lra).
  exact (@refract_into_denser forward N (@qlit Real.arith 1.5)
           (@i2f Real.arith 1) Heta Hq).
Defined.

Lemma secondary_rays_unit_witness :
  let N := normal_of (scene_intersect one_sphere_scene camera forward) in
  norm (normalized (reflect forward N)) = 1
  /\ normalized (reflect forward N) = reflect forward N.
Proof.
  intros N.
  assert (Hdir : norm forward = 1) by (apply norm_axis; reflexivity).
  assert (Hrad : forall s, In s one_sphere_scene -> 0 < radius s).
  { intros s [<- | []]. unfold ivory_ball. cbn [radius]. real_ops. lra. }
  pose proof (@secondary_rays_unit one_sphere_scene camera forward
                Hdir Hrad one_sphere_hit) as H.
  cbv zeta in H. destruct H as (H1 & H2 & _).
  split; [exact H1 | exact H2].
Defined.

Lemma ray_from_surface_witness :
  let tca := dot (vsub (center ivory_ball) (ivec 0 0 (-2))) forward in
  ray_sphere_intersect (ivec 0 0 (-2)) forward ivory_ball
  = if Real.ltb (Q2R 0.001) (2 * tca) then (true, 2 * tca)
    else (false, i2f 0).
Proof.
  apply ray_from_surface.
  - apply norm_axis. reflexivity.
  - unfold ivory_ball. cbn [center radius]. vec_ops. ring.
Defined.

End MoreReals.

(** * The remaining code, on machine numbers *)

Module MoreFloats.

#[local] Existing Instance IEEE.binary32.

Ltac float_ops :=
  cbn [float double fadd fsub fmul fdiv fneg fabs fsqrt fpow flt dadd dmul
       dlt f2d d2f i2f i2d d2i dlit IEEE.binary32 IEEE.arith] in *.

(** ** cast_ray on a normal that is not a number *)

Lemma fmul_nan_r (a : spec_float) :
  SFmul IEEE.prec32 IEEE.emax32 a S754_nan = S754_nan.
Proof. destruct a; reflexivity. Qed.

Lemma fadd_nan_l (b : spec_float) :
  SFadd IEEE.prec32 IEEE.emax32 S754_nan b = S754_nan.
Proof. reflexivity. Qed.

Lemma fadd_nan_r (a : spec_float) :
  SFadd IEEE.prec32 IEEE.emax32 a S754_nan = S754_nan.
Proof. destruct a; reflexivity. Qed.

(* one NaN component of N makes I * N a NaN *)
Lemma dot_nan (I N : vec3) :
  x N = S754_nan \/ y N = S754_nan \/ z N = S754_nan ->
  dot I N = S754_nan.
Proof.
  unfold dot. float_ops. intros [E | [E | E]]; rewrite E, fmul_nan_r;
    repeat (rewrite fadd_nan_l || rewrite fadd_nan_r); reflexivity.
Qed.

Lemma vneg_nan (N : vec3) :
  x N = S754_nan \/ y N = S754_nan \/ z N = S754_nan ->
  x (vneg N) = S754_nan \/ y (vneg N) = S754_nan \/ z (vneg N) = S754_nan.
Proof.
  unfold vneg. cbn [x y z]. float_ops.
  intros [E | [E | E]]; rewrite E; auto.
Qed.

(* min and max clamp a NaN cosine to -1, so refract takes the ray to come
   from inside, over and over *)
Lemma refract_nan_normal (fuel : nat) (I : vec3) :
  forall (N : vec3) (eta_t eta_i : float),
    x N = S754_nan \/ y N = S754_nan \/ z N = S754_nan ->
    refract fuel I N eta_t eta_i = None.
Proof.
  induction fuel as [|fuel IH]; intros N eta_t eta_i HN; [reflexivity|].
  cbn [refract]. unfold cosi_of. rewrite (@dot_nan I N HN).
  match goal with
  | |- (if ?c then _ else _) = _ =>
      replace c with true by (vm_compute; reflexivity)
  end.
  apply IH, vneg_nan, HN.
Qed.

(** When scene_intersect reports a hit whose normal has a NaN component,
    and depth is at most 4, cast_ray does not return: whatever the bound
    on nested calls, refract exhausts it. *)
Theorem cast_ray_nan_normal (fuel : nat) (sph : list Sphere)
    (orig dir : vec3) (depth : Z) :
  let r := scene_intersect sph orig dir in
  hit_of r = true -> (depth <= 4)%Z ->
  x (normal_of r) = S754_nan \/ y (normal_of r) = S754_nan
  \/ z (normal_of r) = S754_nan ->
  cast_ray fuel sph orig dir depth = None.
Proof.
  intros r Hhit Hdepth Hnan. destruct fuel as [|fuel]; [reflexivity|].
  rewrite cast_ray_eq. cbv zeta. fold r. rewrite Hhit.
  destruct (Z.gtb_spec depth 4) as [Hgt | _]; [lia|].
  cbn [negb orb]. rewrite refract_nan_normal by exact Hnan. reflexivity.
Qed.

(** ** The statements at concrete rays *)

Lemma cast_ray_nan_normal_witness :
  cast_ray 1000 IEEE.speck_scene camera forward 0 = None.
Proof.
  apply cast_ray_nan_normal.
  - vm_compute. reflexivity.
  - lia.
  - left. vm_compute. reflexivity.
Defined.

Lemma hit_on_ray_witness :
  point_of (scene_intersect spheres camera forward)
  = vadd camera
      (vscale forward (nearest_dist (scene_state spheres camera forward)))
  /\ (nearest_dist (scene_state spheres camera forward) <? i2f 1000)%fl
     = true.
Proof.
  assert (Hs : (d2f (dlit 1e10) <? i2f 1000)%fl = false)
    by (vm_compute; reflexivity).
  assert (Hh : hit_of (scene_intersect spheres camera forward) = true)
    by (vm_compute; reflexivity).
  pose proof (@hit_on_ray IEEE.binary32 spheres camera forward Hs Hh) as H.
  cbv zeta in H. destruct H as (H1 & _ & H3).
  split; [exact H1 | exact H3].
Defined.

Lemma color_index_levels_witness :
  (16 <= color_index (x background) (y background) (z background) <= 231)%Z.
Proof.
  assert (Hr : (0 <= level (x background) <= 5)%Z)
    by (vm_compute; split; discriminate).
  assert (Hg : (0 <= level (y background) <= 5)%Z)
    by (vm_compute; split; discriminate).
  assert (Hb : (0 <= level (z background) <= 5)%Z)
    by (vm_compute; split; discriminate).
  exact (proj1 (@color_index_levels IEEE.binary32
                  (x background) (y background) (z background)
                  (x background) (y background) (z background)
                  Hr Hg Hb)).
Defined.

End MoreFloats.
